(** * midway core: WebRouterCollector

    A shallow embedding of [packages/core/src/common/webRouterCollector.ts]
    and the properties of its route table: duplicate detection, the
    ordering inside a prefix group, the ordering of the groups and the
    lazily initialised read operations.

    Conventions of the embedding.
    - A JavaScript string is a [string]; its code units are the 8-bit
      characters of [ascii], so the line terminators that the regular
      expression atom [.] refuses are LF and CR.
    - A JavaScript number that holds a length, a weight or a comparator
      result is a [Z].
    - [Map<string, RouterInfo[]>] is a [gmap string (list RouterInfo)]; the
      iteration order of the keys is not part of the model (the only loop
      over the keys sorts every bucket independently of the others).
    - Values of type [any] (middleware references, binding metadata) are
      passed through untouched by the collector and are represented by a
      name. *)

From Stdlib Require Import ZArith Ascii String.
From stdpp Require Import base option list gmap strings fin_maps sorting.

Local Open Scope string_scope.
Local Open Scope Z_scope.

(** ** JavaScript string primitives used by the collector *)

Module Js.

(** [s.length] *)
Definition strlen (s : string) : Z := Z.of_nat (String.length s).

(** [s.includes(c)] for a one character needle. *)
Fixpoint includes (c : ascii) (s : string) : bool :=
  match s with
  | EmptyString => false
  | String d s' => if Ascii.eqb c d then true else includes c s'
  end.

(** [s.startsWith(p)] *)
Fixpoint startsWith (p s : string) : bool :=
  match p, s with
  | EmptyString, _ => true
  | String _ _, EmptyString => false
  | String a p', String b s' => if Ascii.eqb a b then startsWith p' s' else false
  end.

(** The worker of [split]: [skip] characters of a separator that has just
    been recognised are still to be dropped; [cur] is the fragment being
    read. *)
Fixpoint split_go (sep : string) (skip : nat) (cur s : string) : list string :=
  match skip with
  | S k =>
      match s with
      | EmptyString => [cur]
      | String _ s' => split_go sep k cur s'
      end
  | O =>
      match s with
      | EmptyString => [cur]
      | String c s' =>
          if startsWith sep s
          then cur :: split_go sep (Nat.pred (String.length sep)) EmptyString s'
          else split_go sep O (cur ++ String c EmptyString) s'
      end
  end.

(** [s.split(sep)] for a non-empty separator. *)
Definition split (sep s : string) : list string :=
  split_go sep O EmptyString s.

(** The character class [\w]. *)
Definition is_word (c : ascii) : bool :=
  let n := N_of_ascii c in
  ((48 <=? n) && (n <=? 57) || (65 <=? n) && (n <=? 90)
   || (97 <=? n) && (n <=? 122) || (n =? 95))%N.

(** A line terminator, the characters [.] does not match. *)
Definition is_line_terminator (c : ascii) : bool :=
  let n := N_of_ascii c in ((n =? 10) || (n =? 13))%N.

Fixpoint no_line_terminator (s : string) : bool :=
  match s with
  | EmptyString => true
  | String c s' => negb (is_line_terminator c) && no_line_terminator s'
  end.

Definition is_empty (s : string) : bool :=
  match s with EmptyString => true | String _ _ => false end.

(** [s.replace(/\**$/, '')]: the first position from which only stars
    follow is where the match starts, so the trailing run of stars goes. *)
Fixpoint replace_trailing_stars (s : string) : string :=
  match s with
  | EmptyString => EmptyString
  | String c s' =>
      let r := replace_trailing_stars s' in
      if Ascii.eqb c "*" && is_empty r then EmptyString else String c r
  end.

Fixpoint drop_word (s : string) : string :=
  match s with
  | EmptyString => EmptyString
  | String c s' => if is_word c then drop_word s' else s
  end.

Definition starts_with_word (s : string) : bool :=
  match s with
  | EmptyString => false
  | String c _ => is_word c
  end.

(** [s.replace(/:\w+/, '123')]: the first colon that is followed by a word
    character, together with the word after it, becomes [123]. *)
Fixpoint replace_first_param (s : string) : string :=
  match s with
  | EmptyString => EmptyString
  | String c s' =>
      if Ascii.eqb c ":" && starts_with_word s'
      then "123" ++ drop_word s'
      else String c (replace_first_param s')
  end.

(** [s.replace(/:.+$/, '')]: the match starts at the first colon whose
    remainder is non-empty and free of line terminators, and runs to the
    end of the string. *)
Fixpoint replace_param_tail (s : string) : string :=
  match s with
  | EmptyString => EmptyString
  | String c s' =>
      if Ascii.eqb c ":" && negb (is_empty s') && no_line_terminator s'
      then EmptyString
      else String c (replace_param_tail s')
  end.

(** [s.toLowerCase()] *)
Definition lower (c : ascii) : ascii :=
  let n := N_of_ascii c in
  if ((65 <=? n) && (n <=? 90))%N then ascii_of_N (n + 32) else c.

Fixpoint toLowerCase (s : string) : string :=
  match s with
  | EmptyString => EmptyString
  | String c s' => String (lower c) (toLowerCase s')
  end.

(** [Array.prototype.sort(cmp)].  The sort of ECMAScript is stable; the
    stable insertion sort stands for it.  For a comparator that is
    consistent on the values sorted, as the comparator of the prefix sort
    is, every conforming implementation returns this very list.  The
    comparator of [sortRouter] is not consistent on every list: it compares
    the raw lengths of two patterns only when their normalized forms are the
    same string.  On such a list an engine may return another permutation
    than the insertion sort does.  What is proved of [sortRouter] on an
    arbitrary list therefore rests on two facts only, which
    [sorts_as_engine] below states of any sort function: the result is a
    permutation of the argument, and every element of the result is in the
    order of the comparator with its successor. *)
Fixpoint sort_insert {A} (cmp : A -> A -> Z) (x : A) (l : list A) : list A :=
  match l with
  | [] => [x]
  | y :: l' => if cmp x y <=? 0 then x :: l else y :: sort_insert cmp x l'
  end.

Definition sort {A} (cmp : A -> A -> Z) (l : list A) : list A :=
  foldr (sort_insert cmp) [] l.

End Js.

(** What a comparator says of two values that it leaves in this order. *)
Definition ordered {A} (cmp : A -> A -> Z) (x y : A) : Prop := cmp x y <= 0.

(** ** Data model *)

(** Opaque payloads ([any] in the source). *)
Definition Any := string.

(** [url: string | RegExp].  A regular expression is an object: [ref] is
    its identity, which is what [===] compares. *)
Inductive Url :=
| UrlString (s : string)
| UrlRegExp (ref : nat) (source flags : string).

(** [url.toString()] *)
Definition url_toString (u : Url) : string :=
  match u with
  | UrlString s => s
  | UrlRegExp _ source flags => "/" ++ source ++ "/" ++ flags
  end.

(** [isRegExp(url)] *)
Definition isRegExp (u : Url) : bool :=
  match u with UrlString _ => false | UrlRegExp _ _ _ => true end.

(** Truthiness of a url: the empty string is falsy, an object is truthy. *)
Definition url_truthy (u : Url) : bool :=
  match u with
  | UrlString s => negb (Js.is_empty s)
  | UrlRegExp _ _ _ => true
  end.

(** [a === b] on urls. *)
Definition url_strict_eq (a b : Url) : bool :=
  match a, b with
  | UrlString s, UrlString t => String.eqb s t
  | UrlRegExp r _ _, UrlRegExp r' _ _ => Nat.eqb r r'
  | _, _ => false
  end.

(** The properties that [sortRouter] adds to an entry. *)
Record SortKeys := mkSortKeys {
  _pureRouter : string;
  _level : Z;
  _paramString : string;
  _category : Z;
  _weight : Z;
}.

(** The options of a trigger declaration ([webRouter.metadata]). *)
Module TriggerOptions.
Record t := mk {
  path : option string;
  method : option string;
  middleware : option (list Any);
  payload : Any;
}.
End TriggerOptions.

(** [functionTriggerMetadata]: the HTTP trigger options built by
    [collectRoute], or the metadata of the declared trigger. *)
Inductive TriggerMetadata :=
| HTTPTriggerOptions (path method : string)
| DeclaredTrigger (metadata : TriggerOptions.t).

(** [functionMetadata = { functionName, ...functionMeta }] *)
Record FunctionMetadata := mkFunctionMetadata {
  fm_functionName : string;
  fm_rest : list (string * Any);
}.

Module RouterInfo.
Record t := mk {
  id : string;
  prefix : string;
  routerName : string;
  url : Url;
  requestMethod : string;
  method : string;
  description : string;
  summary : string;
  handlerName : string;
  funcHandlerName : string;
  controllerId : string;
  middleware : list Any;
  controllerMiddleware : list Any;
  requestMetadata : list Any;
  responseMetadata : list Any;
  functionName : option string;
  functionTriggerName : option string;
  functionTriggerMetadata : option TriggerMetadata;
  functionMetadata : option FunctionMetadata;
  (** present once the entry went through [sortRouter] *)
  sortKeys : option SortKeys;
}.

(** [{ ...item, _pureRouter, _level, _paramString, _category, _weight }] *)
Definition with_keys (item : t) (k : SortKeys) : t :=
  mk (id item) (prefix item) (routerName item) (url item) (requestMethod item)
     (method item) (description item) (summary item) (handlerName item)
     (funcHandlerName item) (controllerId item) (middleware item)
     (controllerMiddleware item) (requestMetadata item) (responseMetadata item)
     (functionName item) (functionTriggerName item)
     (functionTriggerMetadata item) (functionMetadata item) (Some k).

(** The four [function*] properties assigned after the literal was built. *)
Definition with_function (item : t) (name trigger : option string)
    (tm : option TriggerMetadata) (fm : option FunctionMetadata) : t :=
  mk (id item) (prefix item) (routerName item) (url item) (requestMethod item)
     (method item) (description item) (summary item) (handlerName item)
     (funcHandlerName item) (controllerId item) (middleware item)
     (controllerMiddleware item) (requestMetadata item) (responseMetadata item)
     name trigger tm fm (sortKeys item).
End RouterInfo.

(** [controllerOption.routerOptions] *)
Module RouterOptions.
Record t := mk {
  middleware : option (list Any);
  ignoreGlobalPrefix : option bool;
  others : list (string * Any);
}.
(** The object literal [{}]. *)
Definition empty : t := mk None None [].
End RouterOptions.

Module RouterPriority.
Record t := mk {
  prefix : string;
  priority : Z;
  middleware : option (list Any);
  routerOptions : RouterOptions.t;
  controllerId : string;
  (** the controller or function module itself, by its identity *)
  routerModule : Any;
}.
End RouterPriority.

Record RouterCollectorOptions := mkOptions {
  includeFunctionRouter : option bool;
  globalPrefix : option string;
}.

(** The fields of a [WebRouterCollector] instance. *)
Record WebRouterCollector := mkCollector {
  baseDir : string;
  isReady : bool;
  routes : gmap string (list RouterInfo.t);
  routesPriority : list RouterPriority.t;
  options : RouterCollectorOptions;
}.

(** [new WebRouterCollector(baseDir, options)] *)
Definition new_WebRouterCollector (baseDir : string) (options : RouterCollectorOptions)
  : WebRouterCollector :=
  {| baseDir := baseDir; isReady := false; routes := ∅; routesPriority := [];
     options := options |}.

(** ** What the decorator registry supplies *)

(** One element of the [WEB_ROUTER_KEY] metadata of a controller. *)
Module RouterOption.
Record t := mk {
  path : Url;
  requestMethod : string;
  routerName : option string;
  method : string;
  middleware : option (list Any);
  summary : option string;
  description : option string;
  ignoreGlobalPrefix : option bool;
}.
End RouterOption.

Module ControllerOption.
Record t := mk {
  prefix : option string;
  routerOptions : RouterOptions.t;
}.
End ControllerOption.

(** A class listed under [CONTROLLER_KEY], with the metadata the collector
    reads from it.  The classes listed are those that the [Controller]
    decorator was applied to, and the decorator saves the controller option
    with its [routerOptions]: the registry of the model hands every class
    with both.  A listed class without them, on which
    [controllerOption.routerOptions.middleware] throws a [TypeError] before
    anything is written, is outside the model. *)
Module ControllerModule.
Record t := mk {
  module : Any;
  providerName : string;                       (* getProviderName(module) *)
  providerUUId : string;                       (* getProviderUUId(module) *)
  controllerOption : ControllerOption.t;       (* getClassMetadata(CONTROLLER_KEY, module) *)
  webRouterInfo : option (list RouterOption.t);(* getClassMetadata(WEB_ROUTER_KEY, module) *)
  routeArgsInfo : string -> option (list Any); (* getPropertyDataFromClass(WEB_ROUTER_PARAM_KEY, module, _) *)
  routerResponseData : string -> option (list Any); (* getPropertyMetadata(WEB_RESPONSE_KEY, module, _) *)
}.
End ControllerModule.

(** One element of the [FUNC_KEY] metadata of a function module. *)
Module Trigger.
Record t := mk {
  type : string;
  methodName : string;
  functionName : option string;
  metadata : option TriggerOptions.t;
}.
End Trigger.

(** The [SERVERLESS_FUNC_KEY] metadata of a method. *)
Module FuncMeta.
Record t := mk {
  functionName : option string;
  rest : list (string * Any);
}.
Definition empty : t := mk None [].
End FuncMeta.

Module FunctionModule.
Record t := mk {
  module : Any;
  providerName : string;
  providerUUId : string;
  webRouterInfo : list Trigger.t;              (* getClassMetadata(FUNC_KEY, module) *)
  routeArgsInfo : string -> option (list Any);
  routerResponseData : string -> option (list Any);
  functionMeta : string -> option FuncMeta.t;  (* getPropertyMetadata(SERVERLESS_FUNC_KEY, module, _) *)
}.
End FunctionModule.

(** The collaborators of the collector that live outside this file: the
    decorator registry behind [listModule] and [joinURLPath] of [../util].
    [joinURLPath] is a parameter of the development: nothing is assumed
    about it. *)
Record Env := mkEnv {
  joinURLPath : option string -> string -> string;
  controllerModules : list ControllerModule.t;   (* listModule(CONTROLLER_KEY) *)
  fnModules : list FunctionModule.t;             (* listModule(FUNC_KEY) *)
}.

(** ** Errors, and the monad of the methods *)

(** The errors that the statements of the collector raise: the two that it
    throws on purpose, and the [TypeError] of [routes.get(prefix)] when the
    table has no group [prefix] ([checkDuplicateAndPush] filters the result
    and the filter of [analyze] reads its length). *)
Inductive Error :=
| MidwayDuplicateRouteError (routerUrl existPos existPosOther : string)
| MidwayCommonError (message : string)
| TypeError.

Inductive Result (A : Type) :=
| Ok (a : A)
| Throw (e : Error).
Arguments Ok {A} a.
Arguments Throw {A} e.

(** What a method runs in: the instance, and the number of times the
    registry has been asked for the controllers, which is what a counting
    stub behind [listModule] observes. *)
Record World := mkWorld {
  self : WebRouterCollector;
  listModuleCalls : nat;
}.

(** A method mutates the instance in place: what it did before it threw
    stays done. *)
Definition M (A : Type) : Type := World -> Result A * World.

Definition ret {A} (a : A) : M A := fun w => (Ok a, w).

Definition bind {A B} (m : M A) (k : A -> M B) : M B :=
  fun w =>
    match m w with
    | (Ok a, w') => k a w'
    | (Throw e, w') => (Throw e, w')
    end.

Definition throw {A} (e : Error) : M A := fun w => (Throw e, w).

Definition this : M WebRouterCollector := fun w => (Ok (self w), w).

Definition update (f : WebRouterCollector -> WebRouterCollector) : M unit :=
  fun w => (Ok tt, {| self := f (self w); listModuleCalls := listModuleCalls w |}).

Notation "x <- m ;; k" := (bind m (fun x => k))
  (at level 100, m at next level, right associativity).
Notation "m ;; k" := (bind m (fun _ => k))
  (at level 100, right associativity).

(** [for (const x of l) body(x)] *)
Fixpoint for_of {A} (l : list A) (body : A -> M unit) : M unit :=
  match l with
  | [] => ret tt
  | x :: l' => body x ;; for_of l' body
  end.

Definition set_routes (r : gmap string (list RouterInfo.t)) (c : WebRouterCollector)
  : WebRouterCollector :=
  {| baseDir := baseDir c; isReady := isReady c; routes := r;
     routesPriority := routesPriority c; options := options c |}.

Definition set_routesPriority (p : list RouterPriority.t) (c : WebRouterCollector)
  : WebRouterCollector :=
  {| baseDir := baseDir c; isReady := isReady c; routes := routes c;
     routesPriority := p; options := options c |}.

Definition set_isReady (b : bool) (c : WebRouterCollector) : WebRouterCollector :=
  {| baseDir := baseDir c; isReady := b; routes := routes c;
     routesPriority := routesPriority c; options := options c |}.

(** ** sortRouter *)

(** The weight loop: one point for each fragment that is not empty and
    holds neither a colon nor a star. *)
Definition fragment_weight (fragment : string) : Z :=
  if Js.is_empty fragment || Js.includes ":" fragment || Js.includes "*" fragment
  then 0 else 1.

Definition weight_of (weightArr : list string) : Z :=
  foldl (fun weight fragment => weight + fragment_weight fragment) 0 weightArr.

Definition paramString_of (urlString : string) : string :=
  if Js.includes ":" urlString then Js.replace_param_tail urlString else "".

Definition category_of (urlString : string) : Z :=
  let category := 2 in
  let category := if negb (Js.is_empty (paramString_of urlString)) then 1 else category in
  let category := if Js.includes "*" urlString then 0 else category in
  category.

(** The callback of [map] in [sortRouter]. *)
Definition sort_keys (item : RouterInfo.t) : SortKeys :=
  let urlString := url_toString (RouterInfo.url item) in
  let weightArr :=
    if isRegExp (RouterInfo.url item)
    then Js.split "\/" urlString else Js.split "/" urlString in
  {| _pureRouter := Js.replace_first_param (Js.replace_trailing_stars urlString);
     _level := Z.of_nat (length (Js.split "/" urlString)) - 1;
     _paramString := paramString_of urlString;
     _category := category_of urlString;
     _weight := weight_of weightArr |}.

(** The comparator of [sortRouter], on an entry paired with its keys. *)
Definition compare_handlers (handlerA handlerB : RouterInfo.t * SortKeys) : Z :=
  let (a, ka) := handlerA in
  let (b, kb) := handlerB in
  if negb (_category ka =? _category kb) then _category kb - _category ka
  else if negb (_weight ka =? _weight kb) then _weight kb - _weight ka
  else if _level ka =? _level kb then
    if String.eqb (_pureRouter kb) (_pureRouter ka)
    then Js.strlen (url_toString (RouterInfo.url a))
         - Js.strlen (url_toString (RouterInfo.url b))
    else Js.strlen (_pureRouter kb) - Js.strlen (_pureRouter ka)
  else _level kb - _level ka.

Definition decorate (item : RouterInfo.t) : RouterInfo.t * SortKeys :=
  (item, sort_keys item).

(** The comparator on the entries themselves. *)
Definition compare_items (a b : RouterInfo.t) : Z :=
  compare_handlers (decorate a) (decorate b).

Definition sortRouter (urlMatchList : list RouterInfo.t) : list RouterInfo.t :=
  map (fun h => RouterInfo.with_keys (fst h) (snd h))
      (Js.sort compare_handlers (map decorate urlMatchList)).

(** ** The collector *)

(** [x || '/'] and [x || ''] on an optional string. *)
Definition or_string (x : option string) (d : string) : string :=
  match x with
  | Some s => if Js.is_empty s then d else s
  | None => d
  end.

(** [!!x] on an optional flag. *)
Definition truthy (x : option bool) : bool := default false x.

(** [priority === undefined] *)
Definition is_undefined {A} (x : option A) : bool :=
  match x with Some _ => false | None => true end.

(** [ServerlessTriggerType.HTTP] *)
Definition ServerlessTriggerType_HTTP : string := "http".

(** [checkDuplicateAndPush(prefix, routerInfo)] *)
Definition is_matched (routerInfo item : RouterInfo.t) : bool :=
  url_truthy (RouterInfo.url routerInfo)
  && negb (Js.is_empty (RouterInfo.requestMethod routerInfo))
  && url_strict_eq (RouterInfo.url item) (RouterInfo.url routerInfo)
  && String.eqb (RouterInfo.requestMethod item) (RouterInfo.requestMethod routerInfo).

Definition checkDuplicateAndPush (prefix : string) (routerInfo : RouterInfo.t) : M unit :=
  c <- this ;;
  match routes c !! prefix with
  | None => throw TypeError
  | Some prefixList =>
      let matched := List.filter (is_matched routerInfo) prefixList in
      match matched with
      | matched0 :: _ =>
          throw (MidwayDuplicateRouteError
                   (RouterInfo.requestMethod routerInfo ++ " "
                    ++ url_toString (RouterInfo.url routerInfo))
                   (RouterInfo.handlerName matched0)
                   (RouterInfo.handlerName routerInfo))
      | [] =>
          update (fun c => set_routes (<[prefix := (prefixList ++ [routerInfo])%list]> (routes c)) c)
      end
  end.

(** [if (!this.routes.has(prefix)) { this.routes.set(prefix, []);
    this.routesPriority.push(item) }] *)
Definition has (prefix : string) (c : WebRouterCollector) : bool :=
  match routes c !! prefix with Some _ => true | None => false end.

Definition set_prefix (item : RouterPriority.t) : M unit :=
  c <- this ;;
  if negb (has (RouterPriority.prefix item) c)
  then update (fun c =>
         set_routesPriority (routesPriority c ++ [item])%list
           (set_routes (<[RouterPriority.prefix item := []]> (routes c)) c))
  else ret tt.

(** The prefix under which [collectRoute] files a controller. *)
Definition ignorePrefix_of (module : ControllerModule.t) : string :=
  or_string (ControllerOption.prefix (ControllerModule.controllerOption module)) "/".

Definition resolved_prefix (env : Env) (options : RouterCollectorOptions)
    (module : ControllerModule.t) : string :=
  let controllerOption := ControllerModule.controllerOption module in
  let controllerIgnoreGlobalPrefix :=
    truthy (RouterOptions.ignoreGlobalPrefix (ControllerOption.routerOptions controllerOption)) in
  let prefix := joinURLPath env (globalPrefix options) (ignorePrefix_of module) in
  if controllerIgnoreGlobalPrefix then ignorePrefix_of module else prefix.

(** The value of the [priority] property at the two sites of
    [collectRoute]; [priority] is the local declared by [let priority;]. *)
Definition priority_of (prefix : string) (priority : option Z) : Z :=
  if String.eqb prefix "/" && is_undefined priority then -999 else 0.

Definition collectRoute (env : Env) (module : ControllerModule.t) (functionMeta : bool)
  : M unit :=
  let controllerId := ControllerModule.providerName module in
  let id := ControllerModule.providerUUId module in
  let controllerOption := ControllerModule.controllerOption module in
  let priority : option Z := None in
  let middleware := RouterOptions.middleware (ControllerOption.routerOptions controllerOption) in
  c <- this ;;
  let prefix := resolved_prefix env (options c) module in
  let ignorePrefix := ignorePrefix_of module in
  if Js.includes "*" prefix
  then throw (MidwayCommonError ("Router prefix " ++ prefix ++ " can't set string with *"))
  else
    set_prefix
      {| RouterPriority.prefix := prefix;
         RouterPriority.priority := priority_of prefix priority;
         RouterPriority.middleware := middleware;
         RouterPriority.routerOptions := ControllerOption.routerOptions controllerOption;
         RouterPriority.controllerId := controllerId;
         RouterPriority.routerModule := ControllerModule.module module |} ;;
    set_prefix
      {| RouterPriority.prefix := ignorePrefix;
         RouterPriority.priority := priority_of ignorePrefix priority;
         RouterPriority.middleware := middleware;
         RouterPriority.routerOptions := ControllerOption.routerOptions controllerOption;
         RouterPriority.controllerId := controllerId;
         RouterPriority.routerModule := ControllerModule.module module |} ;;
    match ControllerModule.webRouterInfo module with
    | None => ret tt
    | Some webRouterInfo =>
        for_of webRouterInfo (fun webRouter =>
          let routeArgsInfo :=
            default [] (ControllerModule.routeArgsInfo module (RouterOption.method webRouter)) in
          let routerResponseData :=
            default [] (ControllerModule.routerResponseData module (RouterOption.method webRouter)) in
          let data :=
            {| RouterInfo.id := id;
               RouterInfo.prefix :=
                 if truthy (RouterOption.ignoreGlobalPrefix webRouter)
                 then ignorePrefix else prefix;
               RouterInfo.routerName := or_string (RouterOption.routerName webRouter) "";
               RouterInfo.url := RouterOption.path webRouter;
               RouterInfo.requestMethod := RouterOption.requestMethod webRouter;
               RouterInfo.method := RouterOption.method webRouter;
               RouterInfo.description := or_string (RouterOption.description webRouter) "";
               RouterInfo.summary := or_string (RouterOption.summary webRouter) "";
               RouterInfo.handlerName := controllerId ++ "." ++ RouterOption.method webRouter;
               RouterInfo.funcHandlerName := controllerId ++ "." ++ RouterOption.method webRouter;
               RouterInfo.controllerId := controllerId;
               RouterInfo.middleware := default [] (RouterOption.middleware webRouter);
               RouterInfo.controllerMiddleware := default [] middleware;
               RouterInfo.requestMetadata := routeArgsInfo;
               RouterInfo.responseMetadata := routerResponseData;
               RouterInfo.functionName := None;
               RouterInfo.functionTriggerName := None;
               RouterInfo.functionTriggerMetadata := None;
               RouterInfo.functionMetadata := None;
               RouterInfo.sortKeys := None |} in
          let data :=
            if functionMeta then
              let functionName := controllerId ++ "-" ++ RouterOption.method webRouter in
              RouterInfo.with_function data (Some functionName)
                (Some ServerlessTriggerType_HTTP)
                (Some (HTTPTriggerOptions
                         (joinURLPath env (Some prefix)
                            (url_toString (RouterOption.path webRouter)))
                         (RouterOption.requestMethod webRouter)))
                (Some {| fm_functionName := functionName; fm_rest := [] |})
            else data in
          checkDuplicateAndPush (RouterInfo.prefix data) data)
    end.

(** [s.replace(/[:#]/g, '-')] *)
Fixpoint replace_colon_hash (s : string) : string :=
  match s with
  | EmptyString => EmptyString
  | String c s' =>
      String (if Ascii.eqb c ":" || Ascii.eqb c "#" then "-"%char else c)
             (replace_colon_hash s')
  end.

Definition createFunctionName (target : FunctionModule.t) (functionName : string) : string :=
  replace_colon_hash (FunctionModule.providerName target) ++ "-" ++ functionName.

(** [functionMeta['functionName'] ?? webRouter['functionName'] ??
    createFunctionName(module, webRouter['methodName'])] with the function
    metadata built from it. *)
Definition function_metadata (module : FunctionModule.t) (webRouter : Trigger.t)
  : string * FunctionMetadata :=
  let functionMeta :=
    default FuncMeta.empty (FunctionModule.functionMeta module (Trigger.methodName webRouter)) in
  let functionName :=
    match FuncMeta.functionName functionMeta with
    | Some n => n
    | None =>
        match Trigger.functionName webRouter with
        | Some n => n
        | None => createFunctionName module (Trigger.methodName webRouter)
        end
    end in
  (functionName, {| fm_functionName := functionName; fm_rest := FuncMeta.rest functionMeta |}).

Definition collectFunctionRoute (module : FunctionModule.t) (functionMeta : bool) : M unit :=
  let webRouterInfo := FunctionModule.webRouterInfo module in
  let controllerId := FunctionModule.providerName module in
  let id := FunctionModule.providerUUId module in
  let prefix := "/" in
  set_prefix
    {| RouterPriority.prefix := prefix;
       RouterPriority.priority := -999;
       RouterPriority.middleware := Some [];
       RouterPriority.routerOptions := RouterOptions.empty;
       RouterPriority.controllerId := controllerId;
       RouterPriority.routerModule := FunctionModule.module module |} ;;
  for_of webRouterInfo (fun webRouter =>
    let methodName := Trigger.methodName webRouter in
    let metadata := Trigger.metadata webRouter in
    let data :=
      {| RouterInfo.id := id;
         RouterInfo.prefix := prefix;
         RouterInfo.routerName := "";
         RouterInfo.url := UrlString "";
         RouterInfo.requestMethod := "";
         RouterInfo.method := methodName;
         RouterInfo.description := "";
         RouterInfo.summary := "";
         RouterInfo.handlerName := controllerId ++ "." ++ methodName;
         RouterInfo.funcHandlerName := controllerId ++ "." ++ methodName;
         RouterInfo.controllerId := controllerId;
         RouterInfo.middleware := default [] (metadata ≫= TriggerOptions.middleware);
         RouterInfo.controllerMiddleware := [];
         RouterInfo.requestMetadata := [];
         RouterInfo.responseMetadata := [];
         RouterInfo.functionName := None;
         RouterInfo.functionTriggerName := None;
         RouterInfo.functionTriggerMetadata := None;
         RouterInfo.functionMetadata := None;
         RouterInfo.sortKeys := None |} in
    let with_meta (data : RouterInfo.t) :=
      let (functionName, fm) := function_metadata module webRouter in
      RouterInfo.with_function data (Some functionName) (Some (Trigger.type webRouter))
        (DeclaredTrigger <$> metadata) (Some fm) in
    match metadata ≫= TriggerOptions.path with
    | Some path =>
        if negb (Js.is_empty path) then
          let data :=
            {| RouterInfo.id := id;
               RouterInfo.prefix := prefix;
               RouterInfo.routerName := "";
               RouterInfo.url := UrlString path;
               RouterInfo.requestMethod := default "get" (metadata ≫= TriggerOptions.method);
               RouterInfo.method := methodName;
               RouterInfo.description := "";
               RouterInfo.summary := "";
               RouterInfo.handlerName := controllerId ++ "." ++ methodName;
               RouterInfo.funcHandlerName := controllerId ++ "." ++ methodName;
               RouterInfo.controllerId := controllerId;
               RouterInfo.middleware := default [] (metadata ≫= TriggerOptions.middleware);
               RouterInfo.controllerMiddleware := [];
               RouterInfo.requestMetadata :=
                 default [] (FunctionModule.routeArgsInfo module methodName);
               RouterInfo.responseMetadata :=
                 default [] (FunctionModule.routerResponseData module methodName);
               RouterInfo.functionName := None;
               RouterInfo.functionTriggerName := None;
               RouterInfo.functionTriggerMetadata := None;
               RouterInfo.functionMetadata := None;
               RouterInfo.sortKeys := None |} in
          checkDuplicateAndPush prefix (if functionMeta then with_meta data else data)
        else if functionMeta then checkDuplicateAndPush prefix (with_meta data)
        else ret tt
    | None =>
        if functionMeta then checkDuplicateAndPush prefix (with_meta data)
        else ret tt
    end).

(** The callback of [this.routesPriority.filter] in [analyze]: it deletes
    the empty buckets from the map while it filters. *)
Fixpoint filter_empty_prefix (items : list RouterPriority.t) : M (list RouterPriority.t) :=
  match items with
  | [] => ret []
  | item :: rest =>
      c <- this ;;
      match routes c !! RouterPriority.prefix item with
      | None => throw TypeError
      | Some prefixList =>
          if 0 <? Z.of_nat (length prefixList)
          then kept <- filter_empty_prefix rest ;; ret (item :: kept)
          else
            update (fun c => set_routes (delete (RouterPriority.prefix item) (routes c)) c) ;;
            filter_empty_prefix rest
      end
  end.

(** The comparator of the prefix sort. *)
Definition compare_prefix (routeA routeB : RouterPriority.t) : Z :=
  Js.strlen (RouterPriority.prefix routeB) - Js.strlen (RouterPriority.prefix routeA).

(** [listModule(CONTROLLER_KEY)], counted. *)
Definition listModule_CONTROLLER (env : Env) : M (list ControllerModule.t) :=
  fun w => (Ok (controllerModules env),
            {| self := self w; listModuleCalls := S (listModuleCalls w) |}).

(** [analyze()].  When [baseDir] is set the source first loads that
    directory into a container, which fills the decorator registry; the
    registry is what [env] holds, so that step leaves the model's state as
    it is. *)
Definition analyze (env : Env) : M unit :=
  controllerModules <- listModule_CONTROLLER env ;;
  for_of controllerModules (fun module => collectRoute env module false) ;;
  c <- this ;;
  (if truthy (includeFunctionRouter (options c))
   then for_of (fnModules env) (fun module => collectFunctionRoute module false)
   else ret tt) ;;
  (* filter empty prefix *)
  c <- this ;;
  kept <- filter_empty_prefix (routesPriority c) ;;
  update (set_routesPriority kept) ;;
  (* sort router *)
  update (fun c => set_routes (sortRouter <$> routes c) c) ;;
  (* sort prefix *)
  update (fun c => set_routesPriority (Js.sort compare_prefix (routesPriority c)) c).

(** ** The read operations

    Each of them starts with
    [if (!this.isReady) { await this.analyze(); this.isReady = true; }].
    [analyze] runs when it is called; the assignment to [isReady] happens
    when the caller is resumed after the [await].  [ensure_begin] is the
    part that runs at the call and tells whether the caller is suspended;
    [ensure_resume] is the part that runs when it is resumed.  (With
    [baseDir] set, [analyze] is itself suspended on the container before
    it lists the controllers; the model, which takes the registry as
    given, has no step for that.) *)

Definition ensure_begin (env : Env) : M bool :=
  c <- this ;;
  if negb (isReady c) then analyze env ;; ret true else ret false.

Definition ensure_resume (awaited : bool) : M unit :=
  if awaited then update (set_isReady true) else ret tt.

(** A call that no other call interleaves with. *)
Definition ensure_ready (env : Env) : M unit :=
  awaited <- ensure_begin env ;; ensure_resume awaited.

Definition getRoutePriorityList (env : Env) : M (list RouterPriority.t) :=
  ensure_ready env ;;
  c <- this ;; ret (routesPriority c).

Definition getRouterTable (env : Env) : M (gmap string (list RouterInfo.t)) :=
  ensure_ready env ;;
  c <- this ;; ret (routes c).

(** [routeArr.concat(x)]: a bucket is spliced in, [undefined] is appended
    as one element ([None]). *)
Definition concat_bucket (routeArr : list (option RouterInfo.t))
    (x : option (list RouterInfo.t)) : list (option RouterInfo.t) :=
  match x with
  | Some l => (routeArr ++ map Some l)%list
  | None => (routeArr ++ [None])%list
  end.

Definition getFlattenRouterTable (env : Env) : M (list (option RouterInfo.t)) :=
  ensure_ready env ;;
  c <- this ;;
  ret (foldl (fun routeArr routerPriority =>
                concat_bucket routeArr (routes c !! RouterPriority.prefix routerPriority))
             [] (routesPriority c)).

(** The three read operations as one, for runs of calls in any order. *)
Inductive Read := GetRoutePriorityList | GetRouterTable | GetFlattenRouterTable.

Inductive View :=
| PriorityList (l : list RouterPriority.t)
| RouterTable (m : gmap string (list RouterInfo.t))
| FlattenRouterTable (l : list (option RouterInfo.t)).

Definition call (env : Env) (op : Read) : M View :=
  match op with
  | GetRoutePriorityList => l <- getRoutePriorityList env ;; ret (PriorityList l)
  | GetRouterTable => m <- getRouterTable env ;; ret (RouterTable m)
  | GetFlattenRouterTable => l <- getFlattenRouterTable env ;; ret (FlattenRouterTable l)
  end.

(** A client that issues the calls one after the other, each one awaited
    before the next is made, whatever their outcome. *)
Fixpoint calls (env : Env) (ops : list Read) (w : World) : World :=
  match ops with
  | [] => w
  | op :: ops' => calls env ops' (snd (call env op w))
  end.

(** Two calls made in the same turn of the event loop, as in
    [Promise.all([c.getRouterTable(), c.getRoutePriorityList()])]: both reach
    their [await] before either is resumed.  The outcome of the first parts
    and the state after both calls have been resumed. *)
Definition two_calls_same_turn (env : Env) (w : World)
  : Result bool * Result bool * World :=
  let (r1, w1) := ensure_begin env w in
  let (r2, w2) := ensure_begin env w1 in
  let w3 := match r1 with Ok a => snd (ensure_resume a w2) | Throw _ => w2 end in
  let w4 := match r2 with Ok a => snd (ensure_resume a w3) | Throw _ => w3 end in
  (r1, r2, w4).

(** A fresh instance in a world where the registry has not been asked. *)
Definition fresh (baseDir : string) (options : RouterCollectorOptions) : World :=
  {| self := new_WebRouterCollector baseDir options; listModuleCalls := 0 |}.

(** ** Properties of states used in the statements *)

(** The prefixes of the priority list, in order. *)
Definition prefixes (l : list RouterPriority.t) : list string :=
  map RouterPriority.prefix l.

(** The rule that gives a priority record its number. *)
Definition priority_rule (item : RouterPriority.t) : Prop :=
  RouterPriority.priority item
  = if String.eqb (RouterPriority.prefix item) "/" then -999 else 0.

(** Every prefix of the priority list is a key of the table and conversely,
    and no prefix is listed twice. *)
Definition groups_agree (c : WebRouterCollector) : Prop :=
  NoDup (prefixes (routesPriority c))
  /\ forall p, p ∈ prefixes (routesPriority c) <-> is_Some (routes c !! p).

(** No bucket of the table is empty. *)
Definition no_empty_group (m : gmap string (list RouterInfo.t)) : Prop :=
  forall p l, m !! p = Some l -> l <> [].

(** [l] descends by prefix length. *)
Definition descending_prefix_length (l : list RouterPriority.t) : Prop :=
  forall i j a b, (i < j)%nat -> l !! i = Some a -> l !! j = Some b ->
    Js.strlen (RouterPriority.prefix b) <= Js.strlen (RouterPriority.prefix a).

(** ** Example declarations *)

(** Modelled from the spec: [joinURLPath] of [../util] is not among the
    sources; the specification only says that the effective prefix comes
    from "joining a global prefix with the declaration's own prefix".  This
    instance puts the global prefix, when there is one, in front of the
    other path.  It is used to run the examples; every theorem below holds
    for an arbitrary [joinURLPath]. *)
Definition join_paths (g : option string) (p : string) : string :=
  match g with
  | Some g => if Js.is_empty g then p else g ++ p
  | None => p
  end.

Definition no_metadata (_ : string) : option (list Any) := None.

(** [@Get(path)] and friends on the method [name]. *)
Definition web (requestMethod : string) (path : string) (name : string) : RouterOption.t :=
  {| RouterOption.path := UrlString path;
     RouterOption.requestMethod := requestMethod;
     RouterOption.routerName := None;
     RouterOption.method := name;
     RouterOption.middleware := None;
     RouterOption.summary := None;
     RouterOption.description := None;
     RouterOption.ignoreGlobalPrefix := None |}.

(** [@Controller(prefix, { ignoreGlobalPrefix })] on the class [name]. *)
Definition controller (name : string) (prefix : string) (ignoreGlobalPrefix : bool)
    (members : list RouterOption.t) : ControllerModule.t :=
  {| ControllerModule.module := name;
     ControllerModule.providerName := name;
     ControllerModule.providerUUId := name;
     ControllerModule.controllerOption :=
       {| ControllerOption.prefix := Some prefix;
          ControllerOption.routerOptions :=
            {| RouterOptions.middleware := Some [];
               RouterOptions.ignoreGlobalPrefix := Some ignoreGlobalPrefix;
               RouterOptions.others := [] |} |};
     ControllerModule.webRouterInfo := Some members;
     ControllerModule.routeArgsInfo := no_metadata;
     ControllerModule.routerResponseData := no_metadata |}.

Definition env_of (l : list ControllerModule.t) : Env :=
  {| joinURLPath := join_paths; controllerModules := l; fnModules := [] |}.

Definition no_options : RouterCollectorOptions :=
  {| includeFunctionRouter := None; globalPrefix := None |}.

(** An entry that only carries a method, a pattern and a handler. *)
Definition entry (requestMethod : string) (u : Url) (handlerName : string) : RouterInfo.t :=
  {| RouterInfo.id := ""; RouterInfo.prefix := "/"; RouterInfo.routerName := "";
     RouterInfo.url := u; RouterInfo.requestMethod := requestMethod;
     RouterInfo.method := handlerName; RouterInfo.description := "";
     RouterInfo.summary := ""; RouterInfo.handlerName := handlerName;
     RouterInfo.funcHandlerName := handlerName; RouterInfo.controllerId := "";
     RouterInfo.middleware := []; RouterInfo.controllerMiddleware := [];
     RouterInfo.requestMetadata := []; RouterInfo.responseMetadata := [];
     RouterInfo.functionName := None; RouterInfo.functionTriggerName := None;
     RouterInfo.functionTriggerMetadata := None; RouterInfo.functionMetadata := None;
     RouterInfo.sortKeys := None |}.

Definition patterns (l : list RouterInfo.t) : list string :=
  map (fun r => url_toString (RouterInfo.url r)) l.

(** A world whose instance holds the one group [prefix] with [entries]. *)
Definition world_with (prefix : string) (entries : list RouterInfo.t) : World :=
  {| self := set_routes {[ prefix := entries ]} (new_WebRouterCollector "" no_options);
     listModuleCalls := 0 |}.

(** Two controllers mounted on one-character prefixes.  In this and in the
    next two sets of declarations the controllers ignore the global prefix,
    so that [joinURLPath] has no part in the prefixes. *)
Definition env_short_prefixes : Env :=
  env_of [controller "home" "/" true [web "get" "/y" "index"];
          controller "alt" "a" true [web "get" "/x" "show"]].

(** A valid controller followed by one whose prefix holds a star. *)
Definition env_star_prefix : Env :=
  env_of [controller "home" "/" true [web "get" "/x" "index"];
          controller "bad" "/api/*" true [web "get" "/y" "show"]].

(** One controller with one route. *)
Definition env_single : Env :=
  env_of [controller "home" "/" true [web "get" "/x" "index"]].

(** ** The order that [sortRouter] produces *)

(** The numeric keys of the comparator, with the length of the normalized
    form as the fourth. *)
Definition key_category (a : RouterInfo.t) : Z := _category (sort_keys a).
Definition key_weight (a : RouterInfo.t) : Z := _weight (sort_keys a).
Definition key_level (a : RouterInfo.t) : Z := _level (sort_keys a).
Definition normalizedForm (a : RouterInfo.t) : string := _pureRouter (sort_keys a).
Definition raw_length (a : RouterInfo.t) : Z := Js.strlen (url_toString (RouterInfo.url a)).

(** [a] and [b] tie on category, weight and depth. *)
Definition same_rank (a b : RouterInfo.t) : Prop :=
  key_category a = key_category b /\ key_weight a = key_weight b
  /\ key_level a = key_level b.

(** [a] may stand before [b]: the first key on which they differ, among
    category, weight, depth and length of the normalized form, is larger
    for [a]. *)
Definition may_precede (a b : RouterInfo.t) : Prop :=
  key_category b < key_category a
  \/ (key_category a = key_category b
      /\ (key_weight b < key_weight a
          \/ (key_weight a = key_weight b
              /\ (key_level b < key_level a
                  \/ (key_level a = key_level b
                      /\ Js.strlen (normalizedForm b) <= Js.strlen (normalizedForm a)))))).

(** ** Pattern classes of the specification *)

Definition has_wildcard (a : RouterInfo.t) : bool :=
  Js.includes "*" (url_toString (RouterInfo.url a)).
Definition has_parameter (a : RouterInfo.t) : bool :=
  Js.includes ":" (url_toString (RouterInfo.url a)).

(** Three controllers mounted on [/], [/api] and [/api/v2], and one that
    declares no route. *)
Definition env_api : Env :=
  env_of [controller "home" "/" false [web "get" "/" "index"];
          controller "api" "/api" false [web "get" "/users" "list"];
          controller "idle" "/idle" false [];
          controller "v2" "/api/v2" false [web "get" "/users/:id" "show"]].

(** ** Duplicate detection *)

(** [item], present in the group, conflicts with the incoming
    [routerInfo]: the incoming entry has a truthy pattern and a non-empty
    method, and [item] has that pattern and that method. *)
Definition conflicts (routerInfo item : RouterInfo.t) : Prop :=
  url_truthy (RouterInfo.url routerInfo) = true
  /\ RouterInfo.requestMethod routerInfo <> ""
  /\ url_strict_eq (RouterInfo.url item) (RouterInfo.url routerInfo) = true
  /\ RouterInfo.requestMethod item = RouterInfo.requestMethod routerInfo.

(** The world once [routerInfo] is at the end of the group [prefix]. *)
Definition pushed (prefix : string) (prefixList : list RouterInfo.t)
    (routerInfo : RouterInfo.t) (w : World) : World :=
  {| self := set_routes (<[prefix := (prefixList ++ [routerInfo])%list]> (routes (self w)))
               (self w);
     listModuleCalls := listModuleCalls w |}.

(** The error that reports [routerInfo] as a duplicate of [existing]. *)
Definition duplicate_of (existing routerInfo : RouterInfo.t) : Error :=
  MidwayDuplicateRouteError
    (RouterInfo.requestMethod routerInfo ++ " " ++ url_toString (RouterInfo.url routerInfo))
    (RouterInfo.handlerName existing)
    (RouterInfo.handlerName routerInfo).

(** ** The two halves of [analyze] and their invariants *)

(** The loops of [analyze] that collect the declarations. *)
Definition collect (env : Env) (controllerModules : list ControllerModule.t) : M unit :=
  for_of controllerModules (fun module => collectRoute env module false) ;;
  c <- this ;;
  if truthy (includeFunctionRouter (options c))
  then for_of (fnModules env) (fun module => collectFunctionRoute module false)
  else ret tt.

(** The three statements of [analyze] that follow the loops. *)
Definition finish : M unit :=
  c <- this ;;
  kept <- filter_empty_prefix (routesPriority c) ;;
  update (set_routesPriority kept) ;;
  update (fun c => set_routes (sortRouter <$> routes c) c) ;;
  update (fun c => set_routesPriority (Js.sort compare_prefix (routesPriority c)) c).

(** [m] keeps [P], whether it returns or throws. *)
Definition preserves {A} (P : World -> Prop) (m : M A) : Prop :=
  forall w, P w -> P (snd (m w)).

(** The same world with one more listing of the controllers. *)
Definition listed (w : World) : World :=
  {| self := self w; listModuleCalls := S (listModuleCalls w) |}.

(** The same world with the instance marked ready. *)
Definition readied (w : World) : World :=
  {| self := set_isReady true (self w); listModuleCalls := listModuleCalls w |}.

(** The same world with another table. *)
Definition with_routes (r : gmap string (list RouterInfo.t)) (w : World) : World :=
  {| self := set_routes r (self w); listModuleCalls := listModuleCalls w |}.

(** [c] holds all that [c0] held: the priority list of [c0] starts that of
    [c], and every group of [c0] is a group of [c] that starts with the
    same entries. *)
Definition extends (c0 c : WebRouterCollector) : Prop :=
  isReady c = isReady c0
  /\ routesPriority c0 `prefix_of` routesPriority c
  /\ forall p l, routes c0 !! p = Some l ->
       exists l', routes c !! p = Some (l ++ l')%list.

(** The test of the [filter] callback of [analyze] on the table [r]. *)
Definition keeps (r : gmap string (list RouterInfo.t)) (item : RouterPriority.t) : bool :=
  match r !! RouterPriority.prefix item with
  | Some (_ :: _) => true
  | _ => false
  end.

(** The table [r] without the empty groups that [items] names. *)
Definition pruned_lookup (items : list RouterPriority.t)
    (r : gmap string (list RouterInfo.t)) (p : string) : option (list RouterInfo.t) :=
  match r !! p with
  | Some [] => if decide (p ∈ prefixes items) then None else Some []
  | o => o
  end.

(** What holds of an instance between two calls of a client that awaits
    each call: the table and the priority list name the same groups, the
    priorities follow the rule, and once the instance is ready no group is
    empty and the priority list descends by prefix length. *)
Definition consistent (w : World) : Prop :=
  groups_agree (self w)
  /\ Forall priority_rule (routesPriority (self w))
  /\ (isReady (self w) = true ->
      no_empty_group (routes (self w))
      /\ descending_prefix_length (routesPriority (self w))).

(** What a read operation returns from a ready instance. *)
Definition view (op : Read) (c : WebRouterCollector) : View :=
  match op with
  | GetRoutePriorityList => PriorityList (routesPriority c)
  | GetRouterTable => RouterTable (routes c)
  | GetFlattenRouterTable =>
      FlattenRouterTable
        (foldl (fun routeArr routerPriority =>
                  concat_bucket routeArr (routes c !! RouterPriority.prefix routerPriority))
               [] (routesPriority c))
  end.

(** The world once the group of [item] has been created. *)
Definition with_group (item : RouterPriority.t) (w : World) : World :=
  {| self := set_routesPriority (routesPriority (self w) ++ [item])%list
               (set_routes (<[RouterPriority.prefix item := []]> (routes (self w))) (self w));
     listModuleCalls := listModuleCalls w |}.

(** The world that [finish] leaves when its filter kept [kept] and left the
    table [r]. *)
Definition finished (kept : list RouterPriority.t) (r : gmap string (list RouterInfo.t))
    (w : World) : World :=
  {| self := set_routesPriority (Js.sort compare_prefix kept)
               (set_routes (sortRouter <$> r) (self w));
     listModuleCalls := listModuleCalls w |}.

(** ** Notions used to describe the keys, the table and its views *)

(** [s.split(c).length - 1] counts the occurrences of [c]. *)
Fixpoint occurrences (c : ascii) (s : string) : nat :=
  match s with
  | EmptyString => O
  | String d s' => if Ascii.eqb c d then S (occurrences c s') else occurrences c s'
  end.

(** The pattern starts with a colon that [/:.+$/] matches: something
    follows the colon, and no line terminator does. *)
Definition leading_parameter (s : string) : bool :=
  match s with
  | EmptyString => false
  | String c s' =>
      Ascii.eqb c ":" && negb (Js.is_empty s') && Js.no_line_terminator s'
  end.

(** A fragment that earns a point of weight. *)
Definition plain_fragment (fragment : string) : bool :=
  negb (Js.is_empty fragment || Js.includes ":" fragment || Js.includes "*" fragment).

(** An entry with the keys that [sortRouter] gives it. *)
Definition keyed (a : RouterInfo.t) : RouterInfo.t :=
  RouterInfo.with_keys a (sort_keys a).

(** Every group of the table, with its key, satisfies [Q]. *)
Definition every_group (Q : string -> list RouterInfo.t -> Prop)
    (c : WebRouterCollector) : Prop :=
  forall p l, routes c !! p = Some l -> Q p l.

(** The entry [e] is where it belongs in the group [p]: [p] is its own
    prefix, and its two handler names are the name of its controller, a dot
    and the name of its method. *)
Definition filed_under (p : string) (e : RouterInfo.t) : Prop :=
  RouterInfo.prefix e = p
  /\ RouterInfo.handlerName e
     = RouterInfo.controllerId e ++ "." ++ RouterInfo.method e
  /\ RouterInfo.funcHandlerName e = RouterInfo.handlerName e.

(** Whatever entry is pushed next, at most one entry of [l] stands in its
    way. *)
Definition at_most_one_match (l : list RouterInfo.t) : Prop :=
  forall probe, (length (List.filter (is_matched probe) l) <= 1)%nat.

(** The group [l] is as [sortRouter] leaves it: every entry carries the
    keys of its pattern, and of two entries the earlier one may precede the
    later one. *)
Definition in_order (l : list RouterInfo.t) : Prop :=
  (forall e, e ∈ l -> RouterInfo.sortKeys e = Some (sort_keys e))
  /\ forall i j a b, (i < j)%nat -> l !! i = Some a -> l !! j = Some b ->
       may_precede a b.

(** What the table keeps between two calls of a client that awaits each
    call, besides [consistent]. *)
Definition well_kept (w : World) : Prop :=
  every_group (fun p l => Forall (filed_under p) l) (self w)
  /\ every_group (fun _ l => at_most_one_match l) (self w)
  /\ (isReady (self w) = true -> every_group (fun _ l => in_order l) (self w)).

(** The entries of the groups that the priority list names, group after
    group in the order of the list. *)
Definition flattened (c : WebRouterCollector) : list RouterInfo.t :=
  concat (map (fun routerPriority =>
                 default [] (routes c !! RouterPriority.prefix routerPriority))
              (routesPriority c)).

(** The prefix of [a] is at least as long as that of [b]. *)
Definition longer_prefix (a b : RouterInfo.t) : Prop :=
  Js.strlen (RouterInfo.prefix b) <= Js.strlen (RouterInfo.prefix a).

(** The two errors that the collection raises on purpose: the one for a
    prefix with a star, and the one for a duplicate route. *)
Definition fatal (e : Error) : Prop :=
  (exists prefix, Js.includes "*" prefix = true
     /\ e = MidwayCommonError ("Router prefix " ++ prefix ++ " can't set string with *"))
  \/ (exists routerUrl existPos existPosOther,
        e = MidwayDuplicateRouteError routerUrl existPos existPosOther).

(** From a world where [P] holds, [m] returns in a world where [Q] holds or
    throws one of the two fatal errors. *)
Definition returns_or_fatal {A} (P : World -> Prop) (m : M A) (Q : World -> Prop) : Prop :=
  forall w, P w ->
    match m w with
    | (Ok _, w') => Q w'
    | (Throw e, _) => fatal e
    end.

(** The groups [p] and [q] exist. *)
Definition has_groups (p q : string) (w : World) : Prop :=
  has p (self w) = true /\ has q (self w) = true.

(** The group into which [collectRoute] files the member [webRouter] of
    the controller [module], on an instance created with [options]. *)
Definition group_of (env : Env) (options : RouterCollectorOptions)
    (module : ControllerModule.t) (webRouter : RouterOption.t) : string :=
  if truthy (RouterOption.ignoreGlobalPrefix webRouter)
  then ignorePrefix_of module
  else resolved_prefix env options module.

(** The group [p] of [c] holds an entry with the pattern [u], the request
    method [m] and the handler name [h]. *)
Definition holds (p : string) (u : Url) (m h : string) (c : WebRouterCollector) : Prop :=
  exists l e, routes c !! p = Some l /\ e ∈ l
    /\ RouterInfo.url e = u /\ RouterInfo.requestMethod e = m
    /\ RouterInfo.handlerName e = h.

(** [c] holds an entry for every member of the controller [module]. *)
Definition holds_members (env : Env) (options : RouterCollectorOptions)
    (module : ControllerModule.t) (c : WebRouterCollector) : Prop :=
  forall members webRouter,
    ControllerModule.webRouterInfo module = Some members -> webRouter ∈ members ->
    holds (group_of env options module webRouter) (RouterOption.path webRouter)
      (RouterOption.requestMethod webRouter)
      (ControllerModule.providerName module ++ "." ++ RouterOption.method webRouter) c.

(** The instance was created with [o], and once it is ready it holds an
    entry for every member of every controller of the registry. *)
Definition complete (env : Env) (o : RouterCollectorOptions) (w : World) : Prop :=
  options (self w) = o
  /\ (isReady (self w) = true ->
      forall module, module ∈ controllerModules env -> holds_members env o module (self w)).


(** [c] holds an entry for the trigger [webRouter] of the function module
    [module] if it declares a path: in the group [/], with the path as its
    pattern, the method of the trigger or [get], and the handler name made
    of the name of the module, a dot and the name of the method. *)
Definition holds_trigger (module : FunctionModule.t) (webRouter : Trigger.t)
    (c : WebRouterCollector) : Prop :=
  forall path,
    Trigger.metadata webRouter ≫= TriggerOptions.path = Some path -> path <> "" ->
    holds "/" (UrlString path)
      (default "get" (Trigger.metadata webRouter ≫= TriggerOptions.method))
      (FunctionModule.providerName module ++ "." ++ Trigger.methodName webRouter) c.

Definition holds_triggers (module : FunctionModule.t) (c : WebRouterCollector) : Prop :=
  forall webRouter,
    webRouter ∈ FunctionModule.webRouterInfo module -> holds_trigger module webRouter c.

(** The same as [complete], for the function modules of an instance that
    includes them. *)
Definition complete_functions (env : Env) (o : RouterCollectorOptions) (w : World) : Prop :=
  options (self w) = o
  /\ (isReady (self w) = true -> truthy (includeFunctionRouter o) = true ->
      forall module, module ∈ fnModules env -> holds_triggers module (self w)).

(** The entry [e] is the one that the collection builds for a member of a
    controller of the registry, or for a trigger with a path of one of its
    function modules. *)
Definition declared (env : Env) (o : RouterCollectorOptions) (e : RouterInfo.t) : Prop :=
  (exists module members webRouter,
     module ∈ controllerModules env
     /\ ControllerModule.webRouterInfo module = Some members /\ webRouter ∈ members
     /\ RouterInfo.prefix e = group_of env o module webRouter
     /\ RouterInfo.url e = RouterOption.path webRouter
     /\ RouterInfo.requestMethod e = RouterOption.requestMethod webRouter
     /\ RouterInfo.method e = RouterOption.method webRouter
     /\ RouterInfo.controllerId e = ControllerModule.providerName module
     /\ RouterInfo.id e = ControllerModule.providerUUId module)
  \/ (exists module webRouter path,
        module ∈ fnModules env /\ webRouter ∈ FunctionModule.webRouterInfo module
        /\ Trigger.metadata webRouter ≫= TriggerOptions.path = Some path /\ path <> ""
        /\ RouterInfo.prefix e = "/"
        /\ RouterInfo.url e = UrlString path
        /\ RouterInfo.requestMethod e
           = default "get" (Trigger.metadata webRouter ≫= TriggerOptions.method)
        /\ RouterInfo.method e = Trigger.methodName webRouter
        /\ RouterInfo.controllerId e = FunctionModule.providerName module
        /\ RouterInfo.id e = FunctionModule.providerUUId module).

(** The priority record [rp] is the one that the collection builds for a
    controller of the registry, under its resolved prefix or under its own,
    or for one of its function modules, under [/]. *)
Definition declared_group (env : Env) (o : RouterCollectorOptions)
    (rp : RouterPriority.t) : Prop :=
  (exists module,
     module ∈ controllerModules env
     /\ (RouterPriority.prefix rp = resolved_prefix env o module
         \/ RouterPriority.prefix rp = ignorePrefix_of module)
     /\ RouterPriority.controllerId rp = ControllerModule.providerName module
     /\ RouterPriority.routerModule rp = ControllerModule.module module
     /\ RouterPriority.routerOptions rp
        = ControllerOption.routerOptions (ControllerModule.controllerOption module)
     /\ RouterPriority.middleware rp
        = RouterOptions.middleware
            (ControllerOption.routerOptions (ControllerModule.controllerOption module)))
  \/ (exists module,
        module ∈ fnModules env
        /\ RouterPriority.prefix rp = "/"
        /\ RouterPriority.controllerId rp = FunctionModule.providerName module
        /\ RouterPriority.routerModule rp = FunctionModule.module module
        /\ RouterPriority.routerOptions rp = RouterOptions.empty
        /\ RouterPriority.middleware rp = Some []).

(** The instance was created with [o] and holds nothing but what the
    registry declares. *)
Definition sound (env : Env) (o : RouterCollectorOptions) (w : World) : Prop :=
  options (self w) = o
  /\ every_group (fun _ l => Forall (declared env o) l) (self w)
  /\ Forall (declared_group env o) (routesPriority (self w)).

(** A function module with a trigger that declares the path [/invoke] and
    one that declares none, beside a controller; and options that include
    the function routers. *)
Definition invoke_trigger : Trigger.t :=
  {| Trigger.type := "http"; Trigger.methodName := "handler";
     Trigger.functionName := None;
     Trigger.metadata :=
       Some {| TriggerOptions.path := Some "/invoke";
               TriggerOptions.method := None;
               TriggerOptions.middleware := None;
               TriggerOptions.payload := "" |} |}.

Definition tick_trigger : Trigger.t :=
  {| Trigger.type := "timer"; Trigger.methodName := "tick";
     Trigger.functionName := None; Trigger.metadata := None |}.

Definition fn_module : FunctionModule.t :=
  {| FunctionModule.module := "fn";
     FunctionModule.providerName := "fn";
     FunctionModule.providerUUId := "fn";
     FunctionModule.webRouterInfo := [invoke_trigger; tick_trigger];
     FunctionModule.routeArgsInfo := no_metadata;
     FunctionModule.routerResponseData := no_metadata;
     FunctionModule.functionMeta := fun _ => None |}.

Definition env_functions : Env :=
  {| joinURLPath := join_paths;
     controllerModules := [controller "home" "/" true [web "get" "/x" "index"]];
     fnModules := [fn_module] |}.

Definition with_functions : RouterCollectorOptions :=
  {| includeFunctionRouter := Some true; globalPrefix := None |}.

(** ** The order of [sortRouter], whatever the engine's sort returns *)

(** [sortRouter] with the built-in sort as a parameter; [sortRouter] is
    [sortRouter_by] at [Js.sort]. *)
Definition sortRouter_by (sort : forall A, (A -> A -> Z) -> list A -> list A)
    (urlMatchList : list RouterInfo.t) : list RouterInfo.t :=
  map (fun h => RouterInfo.with_keys (fst h) (snd h))
      (sort _ compare_handlers (map decorate urlMatchList)).

(** What is used of [Array.prototype.sort]: called with a comparator whose
    answer changes sign when its arguments are swapped, it returns a
    permutation of its argument in which every element is in the order of
    the comparator with its successor. *)
Definition sorts_as_engine (sort : forall A, (A -> A -> Z) -> list A -> list A) : Prop :=
  forall A (cmp : A -> A -> Z) (l : list A),
    (forall x y, cmp y x = - cmp x y) ->
    sort A cmp l ≡ₚ l /\ Sorted (ordered cmp) (sort A cmp l).

(** The keys in the words of the specification.  The category is 0 for a
    pattern that contains a wildcard, 1 for one that contains a parameter
    and no wildcard, 2 for a fully literal one. *)
Definition category (a : RouterInfo.t) : Z :=
  if has_wildcard a then 0 else if has_parameter a then 1 else 2.

(** One point for each segment that is a plain literal: not empty, and with
    neither a parameter sigil nor a wildcard.  The segments of a string
    pattern lie between its slashes; those of a regular expression lie
    between the escaped slashes of its text. *)
Definition specificityWeight (a : RouterInfo.t) : Z :=
  Z.of_nat (length (List.filter plain_fragment
    (if isRegExp (RouterInfo.url a)
     then Js.split "\/" (url_toString (RouterInfo.url a))
     else Js.split "/" (url_toString (RouterInfo.url a))))).

(** The number of path separators. *)
Definition depth (a : RouterInfo.t) : Z :=
  Z.of_nat (occurrences "/" (url_toString (RouterInfo.url a))).

(** [a] and [b] tie on category, weight and depth. *)
Definition ties (a b : RouterInfo.t) : Prop :=
  category a = category b /\ specificityWeight a = specificityWeight b
  /\ depth a = depth b.

(** [a] precedes [b] in the order of the specification: the first key on
    which they differ, among category, weight, depth and length of the
    normalized form, is larger for [a]. *)
Definition precedes (a b : RouterInfo.t) : Prop :=
  category b < category a
  \/ (category a = category b
      /\ (specificityWeight b < specificityWeight a
          \/ (specificityWeight a = specificityWeight b
              /\ (depth b < depth a
                  \/ (depth a = depth b
                      /\ Js.strlen (normalizedForm b) <= Js.strlen (normalizedForm a)))))).

(** The pattern of [a] does not start with a parameter. *)
Definition starts_plain (a : RouterInfo.t) : Prop :=
  leading_parameter (url_toString (RouterInfo.url a)) = false.

(** ** What a failed pass leaves *)




(** A controller that declares no route, followed by one with a route. *)
Definition env_idle_first : Env :=
  env_of [controller "idle" "/idle" true [];
          controller "home" "/" true [web "get" "/x" "index"]].

(** * Proofs *)

(** ** The sort *)

Section Sort.
Context {A : Type} (cmp : A -> A -> Z).

Lemma sort_insert_perm x l : Js.sort_insert cmp x l ≡ₚ x :: l.
Proof.
  induction l as [|y l IH]; simpl; [done|].
  destruct (cmp x y <=? 0); [done|].
  rewrite IH. apply Permutation_swap.
Qed.

Lemma sort_perm l : Js.sort cmp l ≡ₚ l.
Proof.
  induction l as [|x l IH]; simpl; [done|].
  fold (Js.sort cmp l). rewrite sort_insert_perm. by rewrite IH.
Qed.

Lemma sort_length l : length (Js.sort cmp l) = length l.
Proof. apply Permutation_length, sort_perm. Qed.

(** The comparator never puts each of two values after the other. *)
Hypothesis cmp_flip : forall x y, 0 < cmp x y -> cmp y x <= 0.

Lemma sort_insert_HdRel z x l :
  ordered cmp z x -> HdRel (ordered cmp) z l ->
  HdRel (ordered cmp) z (Js.sort_insert cmp x l).
Proof.
  intros Hzx Hl. destruct l as [|y l]; simpl.
  - by constructor.
  - destruct (cmp x y <=? 0); constructor; [done|].
    by inversion Hl.
Qed.

Lemma sort_insert_Sorted x l :
  Sorted (ordered cmp) l -> Sorted (ordered cmp) (Js.sort_insert cmp x l).
Proof.
  induction 1 as [|y l Hs IH Hhd]; simpl.
  - repeat constructor.
  - destruct (cmp x y <=? 0) eqn:E.
    + apply Z.leb_le in E. constructor; [by constructor|by constructor].
    + apply Z.leb_gt in E. constructor; [done|].
      apply sort_insert_HdRel; [|done]. by apply cmp_flip.
Qed.

Lemma sort_Sorted l : Sorted (ordered cmp) (Js.sort cmp l).
Proof.
  induction l as [|x l IH]; simpl; [constructor|].
  by apply sort_insert_Sorted.
Qed.
End Sort.

Lemma sort_insert_map {A B} (f : A -> B) (cmp : B -> B -> Z) x l :
  Js.sort_insert cmp (f x) (map f l)
  = map f (Js.sort_insert (fun a b => cmp (f a) (f b)) x l).
Proof.
  induction l as [|y l IH]; simpl; [done|].
  destruct (cmp (f x) (f y) <=? 0); simpl; [done|]. by rewrite IH.
Qed.

Lemma sort_map {A B} (f : A -> B) (cmp : B -> B -> Z) l :
  Js.sort cmp (map f l) = map f (Js.sort (fun a b => cmp (f a) (f b)) l).
Proof.
  induction l as [|x l IH]; simpl; [done|].
  fold (Js.sort cmp (map f l)). rewrite IH. apply sort_insert_map.
Qed.

Lemma Sorted_mono {A} (R R' : A -> A -> Prop) l :
  (forall x y, R x y -> R' x y) -> Sorted R l -> Sorted R' l.
Proof.
  intros HR. induction 1 as [|x l Hs IH Hhd]; constructor; [done|].
  destruct Hhd; constructor; auto.
Qed.

Lemma Sorted_lookup_next {A} (R : A -> A -> Prop) l i a b :
  Sorted R l -> l !! i = Some a -> l !! S i = Some b -> R a b.
Proof.
  intros Hs. revert i. induction Hs as [|x l Hs IH Hhd]; intros i Ha Hb; [done|].
  destruct i as [|i]; simpl in *.
  - destruct l as [|y l]; simplify_eq/=. by inversion Hhd.
  - by eapply IH.
Qed.

Lemma StronglySorted_lookup {A} (R : A -> A -> Prop) l i j a b :
  StronglySorted R l -> (i < j)%nat -> l !! i = Some a -> l !! j = Some b -> R a b.
Proof.
  intros Hs. revert i j. induction Hs as [|x l Hs IH Hall]; intros i j Hij Ha Hb; [done|].
  destruct j as [|j]; [lia|]. destruct i as [|i]; simpl in *.
  - simplify_eq. rewrite Forall_forall in Hall. apply Hall.
    by eapply list_elem_of_lookup_2.
  - eapply (IH i j); [lia|done..].
Qed.

(** ** The comparator of [sortRouter] *)

Lemma sortRouter_unfold l :
  sortRouter l
  = map (fun a => RouterInfo.with_keys a (sort_keys a)) (Js.sort compare_items l).
Proof.
  unfold sortRouter. rewrite (sort_map decorate compare_handlers).
  rewrite map_map. done.
Qed.

Lemma sort_keys_with_keys a k : sort_keys (RouterInfo.with_keys a k) = sort_keys a.
Proof. done. Qed.

Lemma compare_handlers_flip h1 h2 :
  0 < compare_handlers h1 h2 -> compare_handlers h2 h1 <= 0.
Proof.
  destruct h1 as [a [pa la sa ca wa]], h2 as [b [pb lb sb cb wb]]; simpl.
  rewrite (String.eqb_sym pa pb).
  destruct (Z.eqb_spec ca cb), (Z.eqb_spec cb ca); simpl; try lia.
  destruct (Z.eqb_spec wa wb), (Z.eqb_spec wb wa); simpl; try lia.
  destruct (Z.eqb_spec la lb), (Z.eqb_spec lb la); simpl; try lia.
  destruct (String.eqb pb pa); lia.
Qed.

Lemma compare_items_flip a b : 0 < compare_items a b -> compare_items b a <= 0.
Proof. apply compare_handlers_flip. Qed.

Lemma compare_handlers_keys a ka b kb :
  compare_handlers (a, ka) (b, kb) <= 0 ->
  _category kb < _category ka
  \/ (_category ka = _category kb
      /\ (_weight kb < _weight ka
          \/ (_weight ka = _weight kb
              /\ (_level kb < _level ka
                  \/ (_level ka = _level kb
                      /\ Js.strlen (_pureRouter kb) <= Js.strlen (_pureRouter ka)))))).
Proof.
  destruct ka as [pa la sa ca wa], kb as [pb lb sb cb wb]; simpl.
  destruct (Z.eqb_spec ca cb); simpl; [|lia].
  destruct (Z.eqb_spec wa wb); simpl; [|lia].
  destruct (Z.eqb_spec la lb); simpl; [|lia].
  destruct (String.eqb_spec pb pa); [subst pb|]; lia.
Qed.

Lemma compare_items_may_precede a b : compare_items a b <= 0 -> may_precede a b.
Proof. apply compare_handlers_keys. Qed.

Lemma may_precede_trans a b c : may_precede a b -> may_precede b c -> may_precede a c.
Proof. unfold may_precede. lia. Qed.

Lemma compare_items_same_form a b :
  same_rank a b -> normalizedForm a = normalizedForm b ->
  compare_items a b = raw_length a - raw_length b.
Proof.
  unfold same_rank, key_category, key_weight, key_level, normalizedForm.
  intros (Hc & Hw & Hl) Hp.
  unfold compare_items, compare_handlers, decorate, raw_length.
  rewrite Hc, Hw, Hl, Hp, !Z.eqb_refl, String.eqb_refl. done.
Qed.

Lemma compare_items_other_form a b :
  same_rank a b -> normalizedForm a <> normalizedForm b ->
  compare_items a b = Js.strlen (normalizedForm b) - Js.strlen (normalizedForm a).
Proof.
  unfold same_rank, key_category, key_weight, key_level, normalizedForm.
  intros (Hc & Hw & Hl) Hp.
  unfold compare_items, compare_handlers, decorate.
  rewrite Hc, Hw, Hl, !Z.eqb_refl. cbn [negb].
  destruct (String.eqb_spec (_pureRouter (sort_keys b)) (_pureRouter (sort_keys a)))
    as [E|E]; [|done].
  exfalso. apply Hp. symmetry. exact E.
Qed.

Lemma sorted_items_may_precede l :
  StronglySorted may_precede (Js.sort compare_items l).
Proof.
  apply Sorted_StronglySorted.
  - intros a b c. apply may_precede_trans.
  - eapply Sorted_mono; [|apply sort_Sorted, compare_items_flip].
    intros a b. apply compare_items_may_precede.
Qed.

Lemma category_of_wildcard s : Js.includes "*" s = true -> category_of s = 0.
Proof. unfold category_of. by intros ->. Qed.

Lemma category_of_literal s :
  Js.includes ":" s = false -> Js.includes "*" s = false -> category_of s = 2.
Proof. unfold category_of, paramString_of. by intros -> ->. Qed.

(** The examples of the source comments and of the specification. *)
Example sortRouter_literal_param_wildcard :
  patterns (sortRouter [entry "get" (UrlString "/ab/*") "a";
                        entry "get" (UrlString "/ab/cd") "b";
                        entry "get" (UrlString "/ab/:id") "c"])
  = ["/ab/cd"; "/ab/:id"; "/ab/*"].
Proof. reflexivity. Qed.

Example sortRouter_root_before_wildcard :
  patterns (sortRouter [entry "get" (UrlString "/*") "a"; entry "get" (UrlString "/") "b"])
  = ["/"; "/*"].
Proof. reflexivity. Qed.

Example sortRouter_deeper_wildcard_first :
  patterns (sortRouter [entry "get" (UrlString "/ab/**") "a";
                        entry "get" (UrlString "/ab/cd/**") "b"])
  = ["/ab/cd/**"; "/ab/**"].
Proof. reflexivity. Qed.

(** C1, as stated, fails: [/a/:id] and [/b/:x] tie on category, weight and
    depth, their normalized forms [/a/123] and [/b/123] have the same
    length, and [/b/:x] is the shorter raw pattern; yet [/a/:id], given
    first, stays first. *)
Lemma sortRouter_equal_length_forms :
  same_rank (entry "get" (UrlString "/a/:id") "a") (entry "get" (UrlString "/b/:x") "b")
  /\ Js.strlen (normalizedForm (entry "get" (UrlString "/a/:id") "a"))
     = Js.strlen (normalizedForm (entry "get" (UrlString "/b/:x") "b"))
  /\ raw_length (entry "get" (UrlString "/b/:x") "b")
     < raw_length (entry "get" (UrlString "/a/:id") "a")
  /\ patterns (sortRouter [entry "get" (UrlString "/a/:id") "a";
                           entry "get" (UrlString "/b/:x") "b"])
     = ["/a/:id"; "/b/:x"].
Proof. vm_compute. repeat split; reflexivity. Qed.

(** C5, at the input where the code departs from it: the pattern [:id]
    holds a parameter and no wildcard, the empty pattern is fully literal,
    both are put in category 2, and [:id] is sorted before the literal.
    In the same way [:id/x] is sorted before the literal [/a]. *)
Theorem sortRouter_leading_parameter :
  has_parameter (entry "get" (UrlString ":id") "p") = true
  /\ has_wildcard (entry "get" (UrlString ":id") "p") = false
  /\ has_parameter (entry "" (UrlString "") "e") = false
  /\ has_wildcard (entry "" (UrlString "") "e") = false
  /\ key_category (entry "get" (UrlString ":id") "p") = 2
  /\ key_category (entry "" (UrlString "") "e") = 2
  /\ patterns (sortRouter [entry "" (UrlString "") "e"; entry "get" (UrlString ":id") "p"])
     = [":id"; ""]
  /\ patterns (sortRouter [entry "get" (UrlString "/a") "a";
                           entry "get" (UrlString ":id/x") "q"])
     = [":id/x"; "/a"].
Proof. vm_compute. repeat split; reflexivity. Qed.

(** ** Duplicate detection *)

Lemma is_empty_true s : Js.is_empty s = true <-> s = "".
Proof. destruct s; simpl; split; congruence. Qed.

Lemma is_matched_conflicts routerInfo item :
  is_matched routerInfo item = true <-> conflicts routerInfo item.
Proof.
  unfold is_matched, conflicts.
  rewrite !andb_true_iff, negb_true_iff, String.eqb_eq.
  split.
  - intros [[[Hu Hm] He] Hr]. repeat split; try done.
    intros Hemp. apply is_empty_true in Hemp. congruence.
  - intros (Hu & Hm & He & Hr). repeat split; try done.
    destruct (Js.is_empty _) eqn:E; [|done].
    by apply is_empty_true in E.
Qed.

Lemma checkDuplicateAndPush_eq prefix routerInfo prefixList w :
  routes (self w) !! prefix = Some prefixList ->
  checkDuplicateAndPush prefix routerInfo w
  = match List.filter (is_matched routerInfo) prefixList with
    | matched0 :: _ => (Throw (duplicate_of matched0 routerInfo), w)
    | [] => (Ok tt, pushed prefix prefixList routerInfo w)
    end.
Proof.
  intros Hget. unfold checkDuplicateAndPush, bind, this. rewrite Hget.
  by destruct (List.filter _ _).
Qed.

Lemma filter_nil_none {A} (f : A -> bool) l :
  List.filter f l = [] <-> forall x, x ∈ l -> f x = false.
Proof.
  induction l as [|y l IH]; simpl.
  - split; [|done]. intros _ x Hx. by apply elem_of_nil in Hx.
  - destruct (f y) eqn:E.
    + split; [done|]. intros H. specialize (H y (list_elem_of_here _ _)). congruence.
    + rewrite IH. split.
      * intros H x Hx. apply elem_of_cons in Hx as [->|Hx]; auto.
      * intros H x Hx. apply H. by apply list_elem_of_further.
Qed.

Lemma filter_head_elem {A} (f : A -> bool) l x rest :
  List.filter f l = x :: rest -> x ∈ l /\ f x = true.
Proof.
  intros H. assert (In x (List.filter f l)) as Hin by (rewrite H; by left).
  apply filter_In in Hin as [Hin Hf]. split; [|done].
  by apply list_elem_of_In.
Qed.

(** C2, as amended.  In a group that exists, [checkDuplicateAndPush]
    raises the Duplicate Route error exactly when the incoming entry has a
    non-empty pattern and a non-empty method and some entry of the group
    has that pattern and that method.  The error then carries the method,
    a space and the pattern of the incoming entry, the handler of an entry
    of the group that conflicts with it, and the handler of the incoming
    entry, and the group is as it was.  Otherwise the incoming entry is
    appended to the group. *)
Theorem checkDuplicateAndPush_conflict prefix routerInfo prefixList w :
  routes (self w) !! prefix = Some prefixList ->
  ((exists e, fst (checkDuplicateAndPush prefix routerInfo w) = Throw e)
   <-> (exists item, item ∈ prefixList /\ conflicts routerInfo item))
  /\ ((exists item, item ∈ prefixList /\ conflicts routerInfo item) ->
      exists existing, existing ∈ prefixList /\ conflicts routerInfo existing
        /\ checkDuplicateAndPush prefix routerInfo w
           = (Throw (duplicate_of existing routerInfo), w))
  /\ ((forall item, item ∈ prefixList -> ~ conflicts routerInfo item) ->
      checkDuplicateAndPush prefix routerInfo w
      = (Ok tt, pushed prefix prefixList routerInfo w)).
Proof.
  intros Hget. rewrite (checkDuplicateAndPush_eq _ _ _ _ Hget).
  destruct (List.filter (is_matched routerInfo) prefixList) as [|m0 rest] eqn:Hf.
  - assert (forall item, item ∈ prefixList -> ~ conflicts routerInfo item) as Hnone.
    { intros item Hin Hc. apply is_matched_conflicts in Hc.
      rewrite (proj1 (filter_nil_none _ _) Hf item Hin) in Hc. done. }
    split; [split|split].
    + by intros [e He].
    + intros (item & Hin & Hc). by destruct (Hnone item Hin).
    + intros (item & Hin & Hc). by destruct (Hnone item Hin).
    + done.
  - apply filter_head_elem in Hf as [Hin Hm]. apply is_matched_conflicts in Hm.
    split; [split|split].
    + intros _. by exists m0.
    + intros _. by eexists.
    + intros _. by exists m0.
    + intros Hnone. by destruct (Hnone m0 Hin).
Qed.

Lemma checkDuplicateAndPush_conflict_witness :
  exists existing,
    existing ∈ [entry "get" (UrlString "/users") "a"]
    /\ conflicts (entry "get" (UrlString "/users") "b") existing
    /\ checkDuplicateAndPush "/" (entry "get" (UrlString "/users") "b")
         (world_with "/" [entry "get" (UrlString "/users") "a"])
       = (Throw (duplicate_of existing (entry "get" (UrlString "/users") "b")),
          world_with "/" [entry "get" (UrlString "/users") "a"]).
Proof.
  apply (proj1 (proj2 (checkDuplicateAndPush_conflict "/"
           (entry "get" (UrlString "/users") "b")
           [entry "get" (UrlString "/users") "a"]
           (world_with "/" [entry "get" (UrlString "/users") "a"]) eq_refl))).
  exists (entry "get" (UrlString "/users") "a"). split.
  - apply list_elem_of_here.
  - repeat split. discriminate.
Defined.

(** C2, as stated, fails: the group holds an entry with the empty pattern
    and the method [get], the incoming entry has the same pattern and the
    same non-empty method, and no error is raised. *)
Lemma checkDuplicateAndPush_empty_pattern :
  RouterInfo.url (entry "get" (UrlString "") "a")
  = RouterInfo.url (entry "get" (UrlString "") "b")
  /\ RouterInfo.requestMethod (entry "get" (UrlString "") "a")
     = RouterInfo.requestMethod (entry "get" (UrlString "") "b")
  /\ RouterInfo.requestMethod (entry "get" (UrlString "") "b") <> ""
  /\ checkDuplicateAndPush "/" (entry "get" (UrlString "") "b")
       (world_with "/" [entry "get" (UrlString "") "a"])
     = (Ok tt, pushed "/" [entry "get" (UrlString "") "a"] (entry "get" (UrlString "") "b")
                 (world_with "/" [entry "get" (UrlString "") "a"])).
Proof. repeat split; try discriminate. Qed.

(** C3, as amended.  Methods are compared as they are written: when every
    entry of the group with the pattern of the incoming entry has a method
    that is another string, were it the same word in another case, no error
    is raised and the incoming entry is appended. *)
Theorem checkDuplicateAndPush_case_sensitive prefix routerInfo prefixList w :
  routes (self w) !! prefix = Some prefixList ->
  (forall item, item ∈ prefixList ->
     url_strict_eq (RouterInfo.url item) (RouterInfo.url routerInfo) = true ->
     RouterInfo.requestMethod item <> RouterInfo.requestMethod routerInfo) ->
  checkDuplicateAndPush prefix routerInfo w
  = (Ok tt, pushed prefix prefixList routerInfo w).
Proof.
  intros Hget Hdiff. rewrite (checkDuplicateAndPush_eq _ _ _ _ Hget).
  destruct (List.filter (is_matched routerInfo) prefixList) as [|m0 rest] eqn:Hf; [done|].
  apply filter_head_elem in Hf as [Hin Hm].
  apply is_matched_conflicts in Hm as (_ & _ & Hu & Hm).
  by destruct (Hdiff m0 Hin Hu).
Qed.

Lemma checkDuplicateAndPush_case_sensitive_witness :
  checkDuplicateAndPush "/" (entry "get" (UrlString "/users") "b")
    (world_with "/" [entry "GET" (UrlString "/users") "a"])
  = (Ok tt, pushed "/" [entry "GET" (UrlString "/users") "a"]
              (entry "get" (UrlString "/users") "b")
              (world_with "/" [entry "GET" (UrlString "/users") "a"])).
Proof.
  apply (checkDuplicateAndPush_case_sensitive "/" (entry "get" (UrlString "/users") "b")
           [entry "GET" (UrlString "/users") "a"]
           (world_with "/" [entry "GET" (UrlString "/users") "a"]) eq_refl).
  intros item Hin _. apply list_elem_of_singleton in Hin. subst item. discriminate.
Defined.

(** C3, as stated, fails: [GET] and [get] differ only in case, the
    patterns are the same, and the second entry is accepted. *)
Lemma checkDuplicateAndPush_method_case :
  RouterInfo.url (entry "GET" (UrlString "/users") "a")
  = RouterInfo.url (entry "get" (UrlString "/users") "b")
  /\ Js.toLowerCase (RouterInfo.requestMethod (entry "GET" (UrlString "/users") "a"))
     = Js.toLowerCase (RouterInfo.requestMethod (entry "get" (UrlString "/users") "b"))
  /\ RouterInfo.requestMethod (entry "GET" (UrlString "/users") "a")
     <> RouterInfo.requestMethod (entry "get" (UrlString "/users") "b")
  /\ RouterInfo.requestMethod (entry "get" (UrlString "/users") "b") <> ""
  /\ fst (checkDuplicateAndPush "/" (entry "get" (UrlString "/users") "b")
            (world_with "/" [entry "GET" (UrlString "/users") "a"]))
     = Ok tt.
Proof. repeat split; try discriminate. Qed.

(** ** The monad *)

Lemma bind_Ok {A B} (m : M A) (k : A -> M B) w a w' :
  m w = (Ok a, w') -> bind m k w = k a w'.
Proof. unfold bind. by intros ->. Qed.

Lemma bind_Throw {A B} (m : M A) (k : A -> M B) w e w' :
  m w = (Throw e, w') -> bind m k w = (Throw e, w').
Proof. unfold bind. by intros ->. Qed.

Lemma bind_inv_Ok {A B} (m : M A) (k : A -> M B) w b w' :
  bind m k w = (Ok b, w') -> exists a w1, m w = (Ok a, w1) /\ k a w1 = (Ok b, w').
Proof.
  unfold bind. destruct (m w) as [[a|e] w1]; [|done]. intros H. by exists a, w1.
Qed.

Lemma bind_inv_Throw {A B} (m : M A) (k : A -> M B) w e w' :
  bind m k w = (Throw e, w') ->
  m w = (Throw e, w') \/ exists a w1, m w = (Ok a, w1) /\ k a w1 = (Throw e, w').
Proof.
  unfold bind. destruct (m w) as [[a|e1] w1].
  - intros H. right. by exists a, w1.
  - intros H. left. by simplify_eq.
Qed.

Lemma preserves_ret {A} P (a : A) : preserves P (ret a).
Proof. by intros w. Qed.

Lemma preserves_throw {A} P e : preserves P (@throw A e).
Proof. by intros w. Qed.

Lemma preserves_this P : preserves P this.
Proof. by intros w. Qed.

Lemma preserves_bind {A B} P (m : M A) (k : A -> M B) :
  preserves P m -> (forall a, preserves P (k a)) -> preserves P (bind m k).
Proof.
  intros Hm Hk w HP. unfold bind. specialize (Hm w HP).
  destruct (m w) as [[a|e] w1]; simpl in *; [by apply Hk|done].
Qed.

Lemma preserves_for_of {A} P (l : list A) body :
  (forall x, preserves P (body x)) -> preserves P (for_of l body).
Proof.
  intros Hbody. induction l as [|x l IH]; simpl.
  - apply preserves_ret.
  - apply preserves_bind; [apply Hbody|by intros _].
Qed.

Lemma preserves_update P f :
  (forall w, P w -> P {| self := f (self w); listModuleCalls := listModuleCalls w |}) ->
  preserves P (update f).
Proof. intros H w HP. by apply H. Qed.

(** ** [collectRoute] and [collectFunctionRoute] keep what their steps keep *)

Lemma priority_of_rule prefix :
  priority_of prefix None = if String.eqb prefix "/" then -999 else 0.
Proof. unfold priority_of. simpl. by rewrite andb_true_r. Qed.

Section Collect.
Context (P : World -> Prop).
Hypothesis set_prefix_P :
  forall item, priority_rule item -> preserves P (set_prefix item).
Hypothesis push_P :
  forall prefix routerInfo, preserves P (checkDuplicateAndPush prefix routerInfo).

Lemma collectRoute_preserves env module functionMeta :
  preserves P (collectRoute env module functionMeta).
Proof.
  unfold collectRoute. apply preserves_bind; [apply preserves_this|]. intros c.
  destruct (Js.includes _ _); [apply preserves_throw|].
  apply preserves_bind; [apply set_prefix_P, priority_of_rule|]. intros _.
  apply preserves_bind; [apply set_prefix_P, priority_of_rule|]. intros _.
  destruct (ControllerModule.webRouterInfo module); [|apply preserves_ret].
  apply preserves_for_of. intros webRouter. apply push_P.
Qed.

Lemma collectFunctionRoute_preserves module functionMeta :
  preserves P (collectFunctionRoute module functionMeta).
Proof.
  unfold collectFunctionRoute.
  apply preserves_bind; [by apply set_prefix_P|]. intros _.
  apply preserves_for_of. intros webRouter.
  destruct (_ ≫= TriggerOptions.path) as [path|].
  - destruct (negb _); [apply push_P|].
    destruct functionMeta; [apply push_P|apply preserves_ret].
  - destruct functionMeta; [apply push_P|apply preserves_ret].
Qed.

Lemma collect_preserves env controllerModules :
  preserves P (collect env controllerModules).
Proof.
  unfold collect.
  apply preserves_bind.
  { apply preserves_for_of. intros module. apply collectRoute_preserves. }
  intros _. apply preserves_bind; [apply preserves_this|]. intros c.
  destruct (truthy _); [|apply preserves_ret].
  apply preserves_for_of. intros module. apply collectFunctionRoute_preserves.
Qed.
End Collect.

(** ** The two steps that write to the instance during collection *)

Lemma set_prefix_eq item w :
  set_prefix item w
  = (Ok tt, if has (RouterPriority.prefix item) (self w) then w else with_group item w).
Proof.
  unfold set_prefix, bind, this. by destruct (has _ _).
Qed.

Lemma has_false p c : has p c = false <-> routes c !! p = None.
Proof. unfold has. destruct (routes c !! p); split; congruence. Qed.

Lemma checkDuplicateAndPush_cases prefix routerInfo w :
  snd (checkDuplicateAndPush prefix routerInfo w) = w
  \/ exists prefixList, routes (self w) !! prefix = Some prefixList
       /\ checkDuplicateAndPush prefix routerInfo w
          = (Ok tt, pushed prefix prefixList routerInfo w).
Proof.
  destruct (routes (self w) !! prefix) as [prefixList|] eqn:Hget.
  - rewrite (checkDuplicateAndPush_eq _ _ _ _ Hget).
    destruct (List.filter _ _); [right; by eexists|by left].
  - left. unfold checkDuplicateAndPush, bind, this. by rewrite Hget.
Qed.

Lemma checkDuplicateAndPush_throws prefix routerInfo w e w' :
  checkDuplicateAndPush prefix routerInfo w = (Throw e, w') -> w' = w.
Proof.
  intros H. destruct (checkDuplicateAndPush_cases prefix routerInfo w) as [Hw|(l & _ & Hw)].
  - by rewrite H in Hw.
  - by rewrite H in Hw.
Qed.

(** The ready flag. *)
Lemma set_prefix_isReady b item :
  preserves (fun w => isReady (self w) = b) (set_prefix item).
Proof. intros w Hw. rewrite set_prefix_eq. simpl. by destruct (has _ _). Qed.

Lemma push_isReady b prefix routerInfo :
  preserves (fun w => isReady (self w) = b) (checkDuplicateAndPush prefix routerInfo).
Proof.
  intros w Hw.
  destruct (checkDuplicateAndPush_cases prefix routerInfo w) as [->|(l & _ & ->)]; done.
Qed.

(** The count of the listings. *)
Lemma set_prefix_calls n item :
  preserves (fun w => listModuleCalls w = n) (set_prefix item).
Proof. intros w Hw. rewrite set_prefix_eq. simpl. by destruct (has _ _). Qed.

Lemma push_calls n prefix routerInfo :
  preserves (fun w => listModuleCalls w = n) (checkDuplicateAndPush prefix routerInfo).
Proof.
  intros w Hw.
  destruct (checkDuplicateAndPush_cases prefix routerInfo w) as [->|(l & _ & ->)]; done.
Qed.

(** The rule of the priorities. *)
Lemma set_prefix_priority item :
  priority_rule item ->
  preserves (fun w => Forall priority_rule (routesPriority (self w))) (set_prefix item).
Proof.
  intros Hitem w Hw. rewrite set_prefix_eq. simpl. destruct (has _ _); [done|].
  simpl. apply Forall_app. split; [done|]. by constructor.
Qed.

Lemma push_priority prefix routerInfo :
  preserves (fun w => Forall priority_rule (routesPriority (self w)))
    (checkDuplicateAndPush prefix routerInfo).
Proof.
  intros w Hw.
  destruct (checkDuplicateAndPush_cases prefix routerInfo w) as [->|(l & _ & ->)]; done.
Qed.

(** The agreement of the table and the priority list. *)
Lemma set_prefix_agree item :
  preserves (fun w => groups_agree (self w)) (set_prefix item).
Proof.
  intros w [Hnd Hkeys]. rewrite set_prefix_eq. simpl.
  destruct (has _ _) eqn:Hhas; [done|].
  apply has_false in Hhas. split; simpl.
  - unfold prefixes. rewrite fmap_app. apply NoDup_app. split; [done|]. split.
    + intros p Hp Hp'. apply list_elem_of_singleton in Hp'. subst p.
      apply Hkeys in Hp. rewrite Hhas in Hp. by destruct Hp.
    + apply NoDup_singleton.
  - intros p. unfold prefixes. rewrite fmap_app, elem_of_app. simpl.
    rewrite list_elem_of_singleton.
    destruct (decide (RouterPriority.prefix item = p)) as [<-|Hne].
    + rewrite lookup_insert_eq. split; [by eexists|by right].
    + rewrite lookup_insert_ne by done. rewrite <- Hkeys. unfold prefixes.
      split; [intros [H|H]; [done|congruence]|by left].
Qed.

Lemma push_agree prefix routerInfo :
  preserves (fun w => groups_agree (self w)) (checkDuplicateAndPush prefix routerInfo).
Proof.
  intros w [Hnd Hkeys].
  destruct (checkDuplicateAndPush_cases prefix routerInfo w) as [->|(l & Hget & ->)];
    [done|].
  split; [done|]. simpl. intros p. rewrite Hkeys.
  destruct (decide (prefix = p)) as [<-|Hne].
  - rewrite lookup_insert_eq, Hget. split; by eexists.
  - by rewrite lookup_insert_ne.
Qed.

(** Nothing that was collected is taken back. *)
Lemma extends_refl c : extends c c.
Proof.
  split; [done|]. split; [done|]. intros p l Hl. exists []. by rewrite app_nil_r.
Qed.

Lemma set_prefix_extends c0 item :
  preserves (fun w => extends c0 (self w)) (set_prefix item).
Proof.
  intros w (Hr & Hp & Hg). rewrite set_prefix_eq. simpl.
  destruct (has _ _) eqn:Hhas; [done|].
  apply has_false in Hhas. split; [done|]. split; simpl.
  - by apply prefix_app_r.
  - intros p l Hl. destruct (Hg p l Hl) as [l' Hl']. exists l'.
    rewrite lookup_insert_ne; [done|]. intros <-. congruence.
Qed.

Lemma push_extends c0 prefix routerInfo :
  preserves (fun w => extends c0 (self w)) (checkDuplicateAndPush prefix routerInfo).
Proof.
  intros w (Hr & Hp & Hg).
  destruct (checkDuplicateAndPush_cases prefix routerInfo w) as [->|(l & Hget & ->)];
    [done|].
  split; [done|]. split; [done|]. simpl. intros p l0 Hl0.
  destruct (Hg p l0 Hl0) as [l' Hl'].
  destruct (decide (prefix = p)) as [<-|Hne].
  - rewrite lookup_insert_eq. exists (l' ++ [routerInfo])%list.
    rewrite Hget in Hl'. simplify_eq. by rewrite app_assoc.
  - rewrite lookup_insert_ne by done. by exists l'.
Qed.

(** ** The end of [analyze] *)

Lemma with_routes_id w : with_routes (routes (self w)) w = w.
Proof. by destruct w as [[] ?]. Qed.

Lemma with_routes_twice r r0 w : with_routes r (with_routes r0 w) = with_routes r w.
Proof. done. Qed.

(** The filter only writes to the table, and only a missing group makes
    it throw. *)
Lemma filter_empty_prefix_frame items w res w' :
  filter_empty_prefix items w = (res, w') ->
  (exists r, w' = with_routes r w) /\ forall e, res = Throw e -> e = TypeError.
Proof.
  revert w res w'. induction items as [|item rest IH]; intros w res w'; simpl.
  - intros [= <- <-]. split; [|done]. exists (routes (self w)). by rewrite with_routes_id.
  - unfold bind at 1, this at 1.
    destruct (routes (self w) !! RouterPriority.prefix item) as [prefixList|].
    + destruct (0 <? Z.of_nat (length prefixList)).
      * unfold bind. destruct (filter_empty_prefix rest w) as [[kept|e] w1] eqn:Hrest.
        -- intros [= <- <-]. split; [|done]. by apply (IH _ _ _ Hrest).
        -- intros [= <- <-]. split; [by apply (IH _ _ _ Hrest)|].
           intros e' [= <-]. by apply (IH _ _ _ Hrest).
      * unfold bind at 1, update at 1. intros Hrest.
        apply IH in Hrest as [[r ->] He]. split; [by exists r|done].
    + intros [= <- <-]. split.
      * exists (routes (self w)). by rewrite with_routes_id.
      * by intros e [= <-].
Qed.

Lemma keeps_delete_ext p r rest :
  p ∉ prefixes rest -> List.filter (keeps (delete p r)) rest = List.filter (keeps r) rest.
Proof.
  intros Hp. induction rest as [|item rest IH]; simpl; [done|].
  assert (RouterPriority.prefix item <> p) as Hne.
  { intros <-. apply Hp. apply list_elem_of_here. }
  assert (keeps (delete p r) item = keeps r item) as ->.
  { unfold keeps. by rewrite lookup_delete_ne. }
  rewrite IH; [done|]. intros Hin. apply Hp. by apply list_elem_of_further.
Qed.

(** On a priority list without repetition whose groups all exist, the
    filter returns the records of the groups that have entries and deletes
    the others from the table. *)
Lemma filter_empty_prefix_ok items w :
  NoDup (prefixes items) ->
  (forall p, p ∈ prefixes items -> is_Some (routes (self w) !! p)) ->
  exists r,
    filter_empty_prefix items w
    = (Ok (List.filter (keeps (routes (self w))) items), with_routes r w)
    /\ forall p, r !! p = pruned_lookup items (routes (self w)) p.
Proof.
  revert w. induction items as [|item rest IH]; intros w Hnd Hex; simpl.
  - exists (routes (self w)). rewrite with_routes_id. split; [done|].
    intros p. unfold pruned_lookup.
    by destruct (routes (self w) !! p) as [[|]|].
  - apply NoDup_cons in Hnd as [Hnotin Hnd].
    unfold bind at 1, this at 1.
    destruct (Hex (RouterPriority.prefix item)) as [prefixList Hget];
      [apply list_elem_of_here|].
    rewrite Hget. unfold keeps at 1. rewrite Hget.
    destruct prefixList as [|x prefixList]; simpl.
    + unfold bind at 1, update at 1.
      set (w1 := {| self := _; listModuleCalls := _ |}).
      destruct (IH w1) as (r & Hrun & Hr); [done| |].
      { intros p Hp. simpl. rewrite lookup_delete_ne.
        - apply Hex. by apply list_elem_of_further.
        - intros <-. done. }
      exists r. split.
      * rewrite Hrun. simpl. by rewrite keeps_delete_ext.
      * intros p. rewrite Hr. simpl. unfold pruned_lookup.
        destruct (decide (RouterPriority.prefix item = p)) as [<-|Hne].
        -- rewrite lookup_delete_eq, Hget.
           destruct (decide _) as [|Hn]; [done|].
           destruct Hn. apply list_elem_of_here.
        -- rewrite lookup_delete_ne by done.
           destruct (routes (self w) !! p) as [[|]|]; try done.
           destruct (decide (p ∈ prefixes rest)) as [Hin|Hnin];
             destruct (decide (p ∈ prefixes (item :: rest))) as [Hin'|Hnin']; try done.
           ++ destruct Hnin'. by apply list_elem_of_further.
           ++ apply elem_of_cons in Hin' as [->|Hin']; [done|]. by destruct Hnin.
    + unfold bind.
      destruct (IH w) as (r & Hrun & Hr); [done| |].
      { intros p Hp. apply Hex. by apply list_elem_of_further. }
      rewrite Hrun. exists r. split; [done|].
      intros p. rewrite Hr. unfold pruned_lookup.
      destruct (routes (self w) !! p) as [[|]|] eqn:Hp; try done.
      destruct (decide (p ∈ prefixes rest)) as [Hin|Hnin];
        destruct (decide (p ∈ prefixes (item :: rest))) as [Hin'|Hnin']; try done.
      * destruct Hnin'. by apply list_elem_of_further.
      * apply elem_of_cons in Hin' as [->|Hin']; [|by destruct Hnin].
        simpl in Hp. congruence.
Qed.

Lemma finish_eq w kept r :
  filter_empty_prefix (routesPriority (self w)) w = (Ok kept, with_routes r w) ->
  finish w = (Ok tt, finished kept r w).
Proof.
  intros Hrun. unfold finish, bind at 1, this at 1.
  rewrite (bind_Ok _ _ _ _ _ Hrun). done.
Qed.

Lemma finish_throws w e w' :
  finish w = (Throw e, w') ->
  e = TypeError /\ isReady (self w') = isReady (self w)
  /\ listModuleCalls w' = listModuleCalls w.
Proof.
  unfold finish, bind at 1, this at 1. intros Hrun.
  apply bind_inv_Throw in Hrun as [Hrun|(kept & w1 & Hf & Hrun)]; [|done].
  apply filter_empty_prefix_frame in Hrun as [[r ->] He]. split; [by apply He|done].
Qed.

(** ** [analyze] *)

Lemma bind_assoc {A B C} (m : M A) (f : A -> M B) (g : B -> M C) w :
  bind (bind m f) g w = bind m (fun x => bind (f x) g) w.
Proof. unfold bind. by destruct (m w) as [[a|e] w1]. Qed.

Lemma bind_ext {A B} (m : M A) (k k' : A -> M B) w :
  (forall a w1, k a w1 = k' a w1) -> bind m k w = bind m k' w.
Proof. intros H. unfold bind. by destruct (m w) as [[a|e] w1]. Qed.

Lemma analyze_eq env w :
  analyze env w = bind (collect env (controllerModules env)) (fun _ => finish) (listed w).
Proof.
  unfold analyze. unfold bind at 1. unfold listModule_CONTROLLER at 1.
  fold (listed w). unfold collect. rewrite bind_assoc.
  apply bind_ext. intros _ w1. by rewrite bind_assoc.
Qed.

Lemma collect_isReady env l b :
  preserves (fun w => isReady (self w) = b) (collect env l).
Proof. apply collect_preserves; intros; [apply set_prefix_isReady|apply push_isReady]. Qed.

Lemma collect_calls env l n :
  preserves (fun w => listModuleCalls w = n) (collect env l).
Proof. apply collect_preserves; intros; [apply set_prefix_calls|apply push_calls]. Qed.

Lemma collect_priority env l :
  preserves (fun w => Forall priority_rule (routesPriority (self w))) (collect env l).
Proof.
  apply collect_preserves; intros; [by apply set_prefix_priority|apply push_priority].
Qed.

Lemma collect_agree env l :
  preserves (fun w => groups_agree (self w)) (collect env l).
Proof. apply collect_preserves; intros; [apply set_prefix_agree|apply push_agree]. Qed.


Lemma finish_returns w w' :
  finish w = (Ok tt, w') ->
  exists kept r, filter_empty_prefix (routesPriority (self w)) w = (Ok kept, with_routes r w)
    /\ w' = finished kept r w.
Proof.
  unfold finish, bind at 1, this at 1. intros Hrun.
  apply bind_inv_Ok in Hrun as (kept & w1 & Hf & Hrun).
  destruct (filter_empty_prefix_frame _ _ _ _ Hf) as [[r ->] _].
  exists kept, r. split; [done|]. by inversion Hrun.
Qed.

(** [analyze] asks for the controllers once and leaves the ready flag as
    it is, however it ends. *)
Lemma analyze_frame env w :
  isReady (self (snd (analyze env w))) = isReady (self w)
  /\ listModuleCalls (snd (analyze env w)) = S (listModuleCalls w).
Proof.
  rewrite analyze_eq. unfold bind.
  pose proof (collect_isReady env (controllerModules env) (isReady (self w)) (listed w)
                eq_refl) as Hr.
  pose proof (collect_calls env (controllerModules env) (S (listModuleCalls w)) (listed w)
                eq_refl) as Hc.
  destruct (collect env _ (listed w)) as [[[]|e] w1]; simpl in *; [|done].
  destruct (finish w1) as [[[]|e] w2] eqn:Hf; simpl.
  - apply finish_returns in Hf as (kept & r & _ & ->). done.
  - apply finish_throws in Hf as (_ & -> & ->). done.
Qed.


(** ** The prefix sort *)

Lemma compare_prefix_flip a b : 0 < compare_prefix a b -> compare_prefix b a <= 0.
Proof. unfold compare_prefix. lia. Qed.

Lemma sort_prefix_descending l : descending_prefix_length (Js.sort compare_prefix l).
Proof.
  intros i j a b Hij Ha Hb.
  eapply (StronglySorted_lookup
            (fun a b => Js.strlen (RouterPriority.prefix b)
                        <= Js.strlen (RouterPriority.prefix a))); [|done..].
  apply Sorted_StronglySorted.
  - intros x y z. lia.
  - eapply Sorted_mono; [|apply sort_Sorted, compare_prefix_flip].
    intros x y. unfold ordered, compare_prefix. lia.
Qed.

(** ** What [finish] establishes *)

Lemma sortRouter_nil_inv l : sortRouter l = [] -> l = [].
Proof.
  intros H. apply (f_equal length) in H.
  rewrite sortRouter_unfold, length_fmap, sort_length in H.
  by destruct l.
Qed.

Lemma elem_of_filter_keeps r items p :
  p ∈ prefixes (List.filter (keeps r) items)
  <-> p ∈ prefixes items /\ exists x l, r !! p = Some (x :: l).
Proof.
  unfold prefixes. rewrite !list_elem_of_fmap. split.
  - intros (item & -> & Hin). apply list_elem_of_In, filter_In in Hin as [Hin Hk].
    split; [exists item; split; [done|by apply list_elem_of_In]|].
    unfold keeps in Hk. destruct (r !! _) as [[|x l]|]; try done. by exists x, l.
  - intros [(item & -> & Hin) (x & l & Hl)]. exists item. split; [done|].
    apply list_elem_of_In, filter_In. split; [by apply list_elem_of_In|].
    unfold keeps. by rewrite Hl.
Qed.

Lemma NoDup_prefixes_filter f items :
  NoDup (prefixes items) -> NoDup (prefixes (List.filter f items)).
Proof.
  unfold prefixes. induction items as [|item rest IH]; simpl; [done|].
  intros [Hn Hnd]%NoDup_cons. destruct (f item); simpl; [|by apply IH].
  apply NoDup_cons. split; [|by apply IH].
  intros Hin. apply Hn. apply list_elem_of_fmap in Hin as (y & -> & Hin).
  apply list_elem_of_fmap. exists y. split; [done|].
  apply list_elem_of_In. apply list_elem_of_In, filter_In in Hin. tauto.
Qed.

Lemma finish_ok w :
  groups_agree (self w) ->
  exists w', finish w = (Ok tt, w')
    /\ isReady (self w') = isReady (self w)
    /\ listModuleCalls w' = listModuleCalls w
    /\ groups_agree (self w')
    /\ no_empty_group (routes (self w'))
    /\ descending_prefix_length (routesPriority (self w'))
    /\ (Forall priority_rule (routesPriority (self w)) ->
        Forall priority_rule (routesPriority (self w'))).
Proof.
  intros [Hnd Hkeys].
  destruct (filter_empty_prefix_ok (routesPriority (self w)) w Hnd) as (r & Hrun & Hr).
  { intros p. apply Hkeys. }
  eexists. split; [by apply finish_eq|].
  set (kept := List.filter _ _).
  assert (kept ≡ₚ Js.sort compare_prefix kept) as Hperm by (symmetry; apply sort_perm).
  repeat split; simpl.
  - unfold prefixes. rewrite <- Hperm. by apply NoDup_prefixes_filter.
  - unfold prefixes. rewrite <- Hperm. fold (prefixes kept).
    intros Hin. apply elem_of_filter_keeps in Hin as [Hin (x & l & Hl)].
    rewrite lookup_fmap, Hr. unfold pruned_lookup. rewrite Hl. by eexists.
  - unfold prefixes. rewrite <- Hperm. fold (prefixes kept).
    rewrite lookup_fmap, Hr. unfold pruned_lookup. intros [l Hl].
    apply elem_of_filter_keeps.
    destruct (routes (self w) !! p) as [[|x l0]|] eqn:Hp; simpl in Hl.
    + destruct (decide _) as [|Hn]; [done|]. destruct Hn. apply Hkeys. by eexists.
    + split; [apply Hkeys; by eexists|by eexists _, _].
    + done.
  - intros p l. rewrite lookup_fmap, Hr. unfold pruned_lookup.
    destruct (routes (self w) !! p) as [[|x l0]|] eqn:Hp; simpl.
    + destruct (decide _) as [|Hn]; [done|]. destruct Hn. apply Hkeys. by eexists.
    + intros [= <-] Hnil. by apply sortRouter_nil_inv in Hnil.
    + done.
  - apply sort_prefix_descending.
  - intros Hall. rewrite <- Hperm. rewrite Forall_forall in Hall |- *.
    intros x Hx. apply Hall. apply list_elem_of_In. apply list_elem_of_In, filter_In in Hx.
    tauto.
Qed.

(** ** The read operations *)

Lemma ensure_ready_cached env w :
  isReady (self w) = true -> ensure_ready env w = (Ok tt, w).
Proof.
  intros Hr. unfold ensure_ready, ensure_begin, bind, this. by rewrite Hr.
Qed.

Lemma ensure_ready_run env w :
  isReady (self w) = false ->
  ensure_ready env w
  = match analyze env w with
    | (Ok _, w') => (Ok tt, readied w')
    | (Throw e, w') => (Throw e, w')
    end.
Proof.
  intros Hr. unfold ensure_ready, ensure_begin, bind, this. rewrite Hr. simpl.
  by destruct (analyze env w) as [[[]|e] w'].
Qed.

Lemma call_eq env op w :
  call env op w
  = match ensure_ready env w with
    | (Ok _, w') => (Ok (view op (self w')), w')
    | (Throw e, w') => (Throw e, w')
    end.
Proof.
  destruct op; unfold call, getRoutePriorityList, getRouterTable, getFlattenRouterTable;
    unfold bind at 1 2; by destruct (ensure_ready env w) as [[[]|e] w'].
Qed.

Lemma call_cached env op w :
  isReady (self w) = true -> call env op w = (Ok (view op (self w)), w).
Proof. intros Hr. by rewrite call_eq, ensure_ready_cached. Qed.

Lemma call_run env op w :
  isReady (self w) = false ->
  call env op w
  = match analyze env w with
    | (Ok _, w') => (Ok (view op (self (readied w'))), readied w')
    | (Throw e, w') => (Throw e, w')
    end.
Proof.
  intros Hr. rewrite call_eq, ensure_ready_run by done.
  by destruct (analyze env w) as [[[]|e] w'].
Qed.

(** A call that returns leaves the instance ready and returns its view. *)
Lemma call_returns env op w v w' :
  call env op w = (Ok v, w') -> isReady (self w') = true /\ v = view op (self w').
Proof.
  destruct (isReady (self w)) eqn:Hr.
  - rewrite call_cached by done. by intros [= <- <-].
  - rewrite call_run by done. destruct (analyze env w) as [[[]|e] w1]; [|done].
    by intros [= <- <-].
Qed.

(** A call that throws found the instance not ready, ran [analyze], and
    ended where [analyze] ended. *)
Lemma call_throws env op w e w' :
  call env op w = (Throw e, w') ->
  isReady (self w) = false /\ analyze env w = (Throw e, w').
Proof.
  destruct (isReady (self w)) eqn:Hr.
  - by rewrite call_cached.
  - rewrite call_run by done. destruct (analyze env w) as [[[]|e1] w1]; [done|].
    by intros [= <- <-].
Qed.

(** ** Consistency between the calls *)

Lemma analyze_consistent env w :
  groups_agree (self w) -> Forall priority_rule (routesPriority (self w)) ->
  groups_agree (self (snd (analyze env w)))
  /\ Forall priority_rule (routesPriority (self (snd (analyze env w))))
  /\ (forall u, fst (analyze env w) = Ok u ->
      no_empty_group (routes (self (snd (analyze env w))))
      /\ descending_prefix_length (routesPriority (self (snd (analyze env w))))).
Proof.
  intros Hagree Hprio. rewrite analyze_eq. unfold bind.
  pose proof (collect_agree env (controllerModules env) (listed w) Hagree) as Ha.
  pose proof (collect_priority env (controllerModules env) (listed w) Hprio) as Hp.
  destruct (collect env _ (listed w)) as [[[]|e] w1]; simpl in *; [|done].
  destruct (finish_ok w1 Ha) as (w2 & -> & _ & _ & Ha2 & Hne & Hd & Hp2). simpl.
  auto.
Qed.

Lemma fresh_consistent baseDir options : consistent (fresh baseDir options).
Proof.
  split; [|split]; simpl.
  - split; [constructor|]. intros p. unfold new_WebRouterCollector. simpl.
    rewrite lookup_empty. split.
    + intros H. by apply elem_of_nil in H.
    + by intros [? ?].
  - constructor.
  - done.
Qed.

Lemma call_consistent env op w : consistent w -> consistent (snd (call env op w)).
Proof.
  intros (Ha & Hp & Hr). destruct (isReady (self w)) eqn:Hready.
  - rewrite call_cached by done. simpl. split; [done|]. split; [done|]. by rewrite Hready.
  - rewrite call_run by done.
    destruct (analyze_consistent env w Ha Hp) as (Ha' & Hp' & Hok).
    destruct (analyze_frame env w) as [Hr' _].
    destruct (analyze env w) as [[[]|e] w1]; simpl in *.
    + split; [done|]. split; [done|]. intros _. by apply (Hok ()).
    + split; [done|]. split; [done|]. rewrite Hr', Hready. done.
Qed.

Lemma calls_consistent env ops w : consistent w -> consistent (calls env ops w).
Proof.
  revert w. induction ops as [|op ops IH]; intros w Hw; simpl; [done|].
  by apply IH, call_consistent.
Qed.

Lemma getRoutePriorityList_call env w :
  call env GetRoutePriorityList w
  = match getRoutePriorityList env w with
    | (Ok l, w') => (Ok (PriorityList l), w')
    | (Throw e, w') => (Throw e, w')
    end.
Proof. unfold call, bind. by destruct (getRoutePriorityList env w) as [[l|e] w']. Qed.

Lemma getRouterTable_call env w :
  call env GetRouterTable w
  = match getRouterTable env w with
    | (Ok m, w') => (Ok (RouterTable m), w')
    | (Throw e, w') => (Throw e, w')
    end.
Proof. unfold call, bind. by destruct (getRouterTable env w) as [[l|e] w']. Qed.

Lemma getRoutePriorityList_returns env w plist :
  fst (getRoutePriorityList env w) = Ok plist ->
  isReady (self (snd (getRoutePriorityList env w))) = true
  /\ plist = routesPriority (self (snd (getRoutePriorityList env w)))
  /\ snd (call env GetRoutePriorityList w) = snd (getRoutePriorityList env w).
Proof.
  intros H. pose proof (call_returns env GetRoutePriorityList w) as Hc.
  rewrite getRoutePriorityList_call in *.
  destruct (getRoutePriorityList env w) as [[l|e] w']; simpl in *; [|done].
  simplify_eq. destruct (Hc _ _ eq_refl) as [Hr Hv]. simpl in Hv. by simplify_eq.
Qed.

Lemma getRouterTable_returns env w table :
  fst (getRouterTable env w) = Ok table ->
  isReady (self (snd (getRouterTable env w))) = true
  /\ table = routes (self (snd (getRouterTable env w)))
  /\ snd (call env GetRouterTable w) = snd (getRouterTable env w).
Proof.
  intros H. pose proof (call_returns env GetRouterTable w) as Hc.
  rewrite getRouterTable_call in *.
  destruct (getRouterTable env w) as [[l|e] w']; simpl in *; [|done].
  simplify_eq. destruct (Hc _ _ eq_refl) as [Hr Hv]. simpl in Hv. by simplify_eq.
Qed.

Lemma descending_root_last plist :
  descending_prefix_length plist ->
  "/" ∈ prefixes plist ->
  (forall p, p ∈ prefixes plist -> p <> "/" -> 1 < Js.strlen p) ->
  last (prefixes plist) = Some "/".
Proof.
  intros Hd Hroot Hlong. unfold prefixes in *. rewrite fmap_last, last_lookup.
  apply list_elem_of_fmap in Hroot as (a & Ha & Hin).
  apply list_elem_of_lookup in Hin as [i Hi].
  pose proof (lookup_lt_Some _ _ _ Hi) as Hlt.
  destruct (lookup_lt_is_Some_2 plist (Nat.pred (length plist))) as [b Hb]; [lia|].
  rewrite Hb. simpl. f_equal.
  destruct (decide (i = Nat.pred (length plist))) as [->|Hne]; [congruence|].
  destruct (decide (RouterPriority.prefix b = "/")) as [|Hb']; [done|].
  assert (1 < Js.strlen (RouterPriority.prefix b)) as Hlen.
  { apply Hlong; [|done]. apply list_elem_of_fmap. exists b. split; [done|].
    by eapply list_elem_of_lookup_2. }
  assert (Js.strlen (RouterPriority.prefix b) <= Js.strlen (RouterPriority.prefix a)) as Hle.
  { eapply (Hd i (Nat.pred (length plist))); [lia|done..]. }
  rewrite <- Ha in Hle. unfold Js.strlen in *. simpl in Hle. lia.
Qed.

(** C4, as amended.  On an instance that a client has only read from, with
    every call awaited before the next one was made, a call of
    [getRoutePriorityList] that returns gives the groups in descending
    order of prefix length, and the root prefix is the last of the list
    whenever every other prefix of the list is longer than one
    character. *)
Theorem getRoutePriorityList_order env baseDir options ops plist :
  fst (getRoutePriorityList env (calls env ops (fresh baseDir options))) = Ok plist ->
  descending_prefix_length plist
  /\ ("/" ∈ prefixes plist ->
      (forall p, p ∈ prefixes plist -> p <> "/" -> 1 < Js.strlen p) ->
      last (prefixes plist) = Some "/").
Proof.
  intros H. apply getRoutePriorityList_returns in H as (Hr & -> & Hw).
  pose proof (call_consistent env GetRoutePriorityList _
                (calls_consistent env ops _ (fresh_consistent baseDir options)))
    as (_ & _ & Hc).
  rewrite Hw in Hc. destruct (Hc Hr) as [_ Hd].
  split; [done|]. by apply descending_root_last.
Qed.

Lemma getRoutePriorityList_order_witness :
  prefixes (routesPriority (self (snd (getRoutePriorityList env_api (fresh "" no_options)))))
  = ["/api/v2"; "/api"; "/"]
  /\ descending_prefix_length
       (routesPriority (self (snd (getRoutePriorityList env_api (fresh "" no_options))))).
Proof.
  split; [vm_compute; reflexivity|].
  apply (getRoutePriorityList_order env_api "" no_options []). vm_compute. reflexivity.
Defined.

(** C4, as stated, fails: the groups [/] and [a] have prefixes of the same
    length, the pass succeeds, and [/] is listed before [a]. *)
Lemma getRoutePriorityList_root_not_last :
  prefixes (routesPriority (self (snd (getRoutePriorityList env_short_prefixes
                                         (fresh "" no_options)))))
  = ["/"; "a"]
  /\ fst (getRoutePriorityList env_short_prefixes (fresh "" no_options))
     = Ok (routesPriority (self (snd (getRoutePriorityList env_short_prefixes
                                        (fresh "" no_options)))))
  /\ Js.strlen "a" = Js.strlen "/".
Proof. vm_compute. repeat split; reflexivity. Qed.

(** The order of the list needs the calls to be awaited one after the
    other: after two calls made in the same turn, the first of which
    returns, the instance is ready and lists [/] before [/idle]. *)
Example same_turn_calls_unsorted_list :
  fst (fst (two_calls_same_turn env_idle_first (fresh "" no_options))) = Ok true
  /\ fst (getRoutePriorityList env_idle_first
            (snd (two_calls_same_turn env_idle_first (fresh "" no_options))))
     = Ok (routesPriority
             (self (snd (two_calls_same_turn env_idle_first (fresh "" no_options)))))
  /\ prefixes (routesPriority
                 (self (snd (two_calls_same_turn env_idle_first (fresh "" no_options)))))
     = ["/"; "/idle"]
  /\ Js.strlen "/" < Js.strlen "/idle".
Proof. vm_compute. repeat split; reflexivity. Qed.

(** C8, as amended.  On an instance that a client has only read from, with
    every call awaited before the next one was made, when [getRouterTable]
    returns a table and [getRoutePriorityList] then returns a list, no
    group of the table is empty and the prefixes of the list are the keys
    of the table.  This is so as soon as [analyze] has returned: no group
    of the table is empty then, and the priority list names the keys of the
    table, each once. *)
Theorem routerTable_no_empty_group env baseDir options ops table plist :
  fst (getRouterTable env (calls env ops (fresh baseDir options))) = Ok table ->
  fst (getRoutePriorityList env
         (snd (getRouterTable env (calls env ops (fresh baseDir options))))) = Ok plist ->
  (no_empty_group table /\ forall p, p ∈ prefixes plist <-> is_Some (table !! p))
  /\ (fst (analyze env (calls env ops (fresh baseDir options))) = Ok tt ->
      no_empty_group
        (routes (self (snd (analyze env (calls env ops (fresh baseDir options))))))
      /\ groups_agree (self (snd (analyze env (calls env ops (fresh baseDir options)))))).
Proof.
  intros Ht Hp. split; cycle 1.
  { pose proof (calls_consistent env ops _ (fresh_consistent baseDir options))
      as (Ha & Hpr & _).
    destruct (analyze_consistent env _ Ha Hpr) as (Ha' & _ & Hok).
    intros Hrun. split; [by apply (Hok ())|done]. }
  apply getRouterTable_returns in Ht as (Hr & -> & Hw).
  pose proof (call_consistent env GetRouterTable _
                (calls_consistent env ops _ (fresh_consistent baseDir options)))
    as ((_ & Hkeys) & _ & Hc).
  rewrite Hw in Hkeys, Hc. destruct (Hc Hr) as [Hne _].
  set (w1 := snd (getRouterTable env _)) in *.
  pose proof (call_cached env GetRoutePriorityList w1 Hr) as Hcall.
  rewrite getRoutePriorityList_call in Hcall.
  destruct (getRoutePriorityList env w1) as [[l|e] w2]; simpl in *; [|done].
  simplify_eq. done.
Qed.

Lemma routerTable_no_empty_group_witness :
  no_empty_group (routes (self (snd (getRouterTable env_api (fresh "" no_options)))))
  /\ forall p,
       p ∈ prefixes (routesPriority
                       (self (snd (getRouterTable env_api (fresh "" no_options)))))
       <-> is_Some (routes (self (snd (getRouterTable env_api (fresh "" no_options)))) !! p).
Proof.
  apply (proj1 (routerTable_no_empty_group env_api "" no_options []
           (routes (self (snd (getRouterTable env_api (fresh "" no_options)))))
           (routesPriority (self (snd (getRouterTable env_api (fresh "" no_options)))))
           ltac:(vm_compute; reflexivity) ltac:(vm_compute; reflexivity))).
Defined.

(** C8, as stated, fails when two read operations are called in the same
    turn on a fresh instance.  The pass of the first call returns, and its
    filter removes the group [/idle], which has no entry.  The pass of the
    second call creates the group [/idle] again, and ends on the Duplicate
    Route error for the route of the other controller before it reaches its
    own filter.  The first call is then resumed, marks the instance ready
    and returns the table: it has the empty group [/idle], the priority
    list names [/idle] after [/], and later calls return the same. *)
Lemma same_turn_calls_leave_empty_group :
  fst (two_calls_same_turn env_idle_first (fresh "" no_options))
  = (Ok true, Throw (MidwayDuplicateRouteError "get /x" "home.index" "home.index"))
  /\ isReady (self (snd (two_calls_same_turn env_idle_first (fresh "" no_options)))) = true
  /\ routes (self (snd (two_calls_same_turn env_idle_first (fresh "" no_options))))
       !! "/idle" = Some []
  /\ prefixes (routesPriority
                 (self (snd (two_calls_same_turn env_idle_first (fresh "" no_options)))))
     = ["/"; "/idle"]
  /\ fst (getRouterTable env_idle_first
            (snd (two_calls_same_turn env_idle_first (fresh "" no_options))))
     = Ok (routes (self (snd (two_calls_same_turn env_idle_first (fresh "" no_options)))))
  /\ fst (getRoutePriorityList env_idle_first
            (snd (two_calls_same_turn env_idle_first (fresh "" no_options))))
     = Ok (routesPriority
             (self (snd (two_calls_same_turn env_idle_first (fresh "" no_options))))).
Proof. vm_compute. repeat split; reflexivity. Qed.

(** The same two calls, each awaited before the next: the first returns the
    table without the group [/idle], and the second returns the same. *)
Example awaited_calls_prune_idle :
  routes (self (calls env_idle_first [GetRouterTable; GetRoutePriorityList]
                  (fresh "" no_options))) !! "/idle" = None
  /\ prefixes (routesPriority
                 (self (calls env_idle_first [GetRouterTable; GetRoutePriorityList]
                          (fresh "" no_options))))
     = ["/"].
Proof. vm_compute. split; reflexivity. Qed.

(** The controller that declares no route leaves no group behind. *)
Example idle_group_pruned :
  routes (self (snd (getRouterTable env_api (fresh "" no_options)))) !! "/idle" = None
  /\ prefixes (routesPriority (self (snd (getRouterTable env_api (fresh "" no_options)))))
     = ["/api/v2"; "/api"; "/"]
  /\ patterns <$> (routes (self (snd (getRouterTable env_api (fresh "" no_options))))
                   !! "/api/v2")
     = Some ["/users/:id"].
Proof. vm_compute. repeat split; reflexivity. Qed.

(** C10.  On an instance that a client has only read from, whether the
    passes succeeded or not, every record of the priority list has the
    priority -999 when its prefix is [/] and 0 otherwise; the local
    [priority] of [collectRoute] is undefined at both places where it is
    tested, so that the priority there is decided by the prefix alone. *)
Theorem priority_by_prefix env baseDir options ops :
  Forall priority_rule (routesPriority (self (calls env ops (fresh baseDir options))))
  /\ forall prefix,
       priority_of prefix None = if String.eqb prefix "/" then -999 else 0.
Proof.
  split; [|apply priority_of_rule].
  apply (calls_consistent env ops _ (fresh_consistent baseDir options)).
Qed.

Lemma resolved_prefix_eq env options module :
  resolved_prefix env options module
  = if truthy (RouterOptions.ignoreGlobalPrefix
                 (ControllerOption.routerOptions (ControllerModule.controllerOption module)))
    then or_string (ControllerOption.prefix (ControllerModule.controllerOption module)) "/"
    else joinURLPath env (globalPrefix options)
           (or_string (ControllerOption.prefix (ControllerModule.controllerOption module)) "/").
Proof. done. Qed.

(** C9.  When the resolved prefix of a controller, which is its own prefix
    if it ignores the global prefix and the global prefix joined with its
    own otherwise, holds a star, [collectRoute] throws the error that names
    the prefix and leaves the instance as it was: no group is created and
    no entry is registered. *)
Theorem collectRoute_invalid_prefix env module functionMeta w :
  Js.includes "*" (resolved_prefix env (options (self w)) module) = true ->
  collectRoute env module functionMeta w
  = (Throw (MidwayCommonError
              ("Router prefix " ++ resolved_prefix env (options (self w)) module
               ++ " can't set string with *")), w).
Proof.
  intros Hstar. unfold collectRoute, bind, this. by rewrite Hstar.
Qed.

Lemma collectRoute_invalid_prefix_witness :
  collectRoute env_star_prefix (controller "bad" "/api/*" true [web "get" "/y" "show"])
    false (fresh "" no_options)
  = (Throw (MidwayCommonError "Router prefix /api/* can't set string with *"),
     fresh "" no_options).
Proof.
  apply (collectRoute_invalid_prefix env_star_prefix
           (controller "bad" "/api/*" true [web "get" "/y" "show"]) false
           (fresh "" no_options)).
  reflexivity.
Defined.

Lemma calls_cached env ops w : isReady (self w) = true -> calls env ops w = w.
Proof.
  intros Hr. induction ops as [|op ops IH]; simpl; [done|].
  by rewrite call_cached.
Qed.

(** C7, as amended.  When a read operation returns, the instance is ready;
    if it was not ready before, the controllers were listed once by that
    call.  From then on every read operation, in any order and each awaited
    before the next, returns the view of the state as it is and leaves the
    state and the count of the listings as they are: no other pass runs. *)
Theorem read_runs_pass_once env op w v :
  fst (call env op w) = Ok v ->
  (isReady (self w) = false ->
   listModuleCalls (snd (call env op w)) = S (listModuleCalls w))
  /\ (forall op',
        call env op' (snd (call env op w))
        = (Ok (view op' (self (snd (call env op w)))), snd (call env op w)))
  /\ (forall ops,
        self (calls env ops (snd (call env op w))) = self (snd (call env op w))
        /\ listModuleCalls (calls env ops (snd (call env op w)))
           = listModuleCalls (snd (call env op w))).
Proof.
  intros Hok.
  destruct (call env op w) as [[v'|e] w1] eqn:Hcall; simpl in *; [|done].
  destruct (call_returns _ _ _ _ _ Hcall) as [Hr _].
  split; [|split].
  - intros Hnot. rewrite call_run in Hcall by done.
    destruct (analyze_frame env w) as [_ Hn].
    destruct (analyze env w) as [[[]|e] w2]; simpl in *; [|done].
    by simplify_eq.
  - intros op'. by apply call_cached.
  - intros ops. by rewrite calls_cached.
Qed.

Lemma read_runs_pass_once_witness :
  listModuleCalls (snd (call env_api GetRouterTable (fresh "" no_options))) = 1%nat
  /\ forall ops,
       listModuleCalls (calls env_api ops (snd (call env_api GetRouterTable
                                                  (fresh "" no_options))))
       = listModuleCalls (snd (call env_api GetRouterTable (fresh "" no_options))).
Proof.
  assert (fst (call env_api GetRouterTable (fresh "" no_options))
          = Ok (view GetRouterTable
                  (self (snd (call env_api GetRouterTable (fresh "" no_options))))))
    as H by (vm_compute; reflexivity).
  split.
  - apply (proj1 (read_runs_pass_once _ _ _ _ H)). reflexivity.
  - intros ops. apply (proj2 (proj2 (read_runs_pass_once _ _ _ _ H))).
Defined.

(** C7, as stated, fails: two read operations called in the same turn on a
    fresh instance both find it not ready; the controllers are listed
    twice, and the second pass ends on a Duplicate Route error for the
    route that the first pass registered. *)
Lemma two_first_calls_two_passes :
  fst (two_calls_same_turn env_single (fresh "" no_options))
  = (Ok true, Throw (MidwayDuplicateRouteError "get /x" "home.index" "home.index"))
  /\ listModuleCalls (snd (two_calls_same_turn env_single (fresh "" no_options))) = 2%nat.
Proof. vm_compute. split; reflexivity. Qed.


(** * Further properties of the collector *)

(** ** The keys of [sortRouter] *)

Lemma replace_param_tail_empty s :
  Js.replace_param_tail s = "" <-> s = "" \/ leading_parameter s = true.
Proof.
  destruct s as [|c s]; simpl.
  - split; [by left|done].
  - destruct (Ascii.eqb c ":" && negb (Js.is_empty s) && Js.no_line_terminator s).
    + split; [by right|done].
    + split; [done|]. by intros [|].
Qed.

Lemma includes_nonempty c s : Js.includes c s = true -> s <> "".
Proof. by destruct s. Qed.

(** X1.  The category is 0 exactly for the patterns that hold a star.  A
    pattern without a star and without a colon has category 2.  A pattern
    without a star and with a colon has category 1, unless it starts with a
    colon that is followed by at least one character and by no line
    terminator: then it has category 2. *)
Theorem category_of_cases (s : string) :
  (category_of s = 0 <-> Js.includes "*" s = true)
  /\ (Js.includes "*" s = false -> Js.includes ":" s = false -> category_of s = 2)
  /\ (Js.includes "*" s = false -> Js.includes ":" s = true ->
      category_of s = if leading_parameter s then 2 else 1).
Proof.
  unfold category_of, paramString_of. split; [|split].
  - destruct (Js.includes "*" s); [done|].
    destruct (Js.includes ":" s); simpl; [|done].
    by destruct (Js.is_empty _).
  - by intros -> ->.
  - intros -> Hc. rewrite Hc.
    destruct (leading_parameter s) eqn:Hl.
    + assert (Js.replace_param_tail s = "") as -> by (apply replace_param_tail_empty; auto).
      done.
    + destruct (Js.is_empty (Js.replace_param_tail s)) eqn:He; [|done].
      apply is_empty_true, replace_param_tail_empty in He as [->|He]; [done|congruence].
Qed.

Lemma category_of_cases_witness :
  category_of "/ab/:id" = 1 /\ category_of ":id" = 2.
Proof.
  split.
  - apply (proj2 (proj2 (category_of_cases "/ab/:id"))); reflexivity.
  - apply (proj2 (proj2 (category_of_cases ":id"))); reflexivity.
Defined.

Lemma split_go_slash_length cur s :
  length (Js.split_go "/" 0 cur s) = S (occurrences "/" s).
Proof.
  revert cur. induction s as [|c s IH]; intros cur; [done|].
  cbn [Js.split_go Js.startsWith occurrences].
  destruct (Ascii.eqb "/" c).
  - destruct s; simpl; [done|]. f_equal. apply IH.
  - apply IH.
Qed.

Lemma weight_of_filter_acc l acc :
  foldl (fun weight fragment => weight + fragment_weight fragment) acc l
  = acc + Z.of_nat (length (List.filter plain_fragment l)).
Proof.
  revert acc. induction l as [|x l IH]; intros acc; simpl; [lia|].
  rewrite IH. unfold fragment_weight, plain_fragment.
  destruct (Js.is_empty x || Js.includes ":" x || Js.includes "*" x); simpl; lia.
Qed.

Lemma filter_length_le {A} (f : A -> bool) l :
  (length (List.filter f l) <= length l)%nat.
Proof. induction l as [|x l IH]; simpl; [lia|]. destruct (f x); simpl; lia. Qed.

(** X2.  The depth of an entry is the number of slashes of its pattern
    string.  Its weight is the number of fragments that are not empty and
    hold neither a colon nor a star; for a string pattern it lies between 0
    and the depth plus one. *)
Theorem sort_keys_depth_weight (item : RouterInfo.t) :
  _level (sort_keys item)
  = Z.of_nat (occurrences "/" (url_toString (RouterInfo.url item)))
  /\ _weight (sort_keys item)
     = Z.of_nat (length (List.filter plain_fragment
         (if isRegExp (RouterInfo.url item)
          then Js.split "\/" (url_toString (RouterInfo.url item))
          else Js.split "/" (url_toString (RouterInfo.url item)))))
  /\ 0 <= _weight (sort_keys item)
  /\ (isRegExp (RouterInfo.url item) = false ->
      _weight (sort_keys item) <= _level (sort_keys item) + 1).
Proof.
  unfold sort_keys. cbn [_level _weight]. unfold weight_of, Js.split.
  rewrite split_go_slash_length, weight_of_filter_acc.
  split; [lia|]. split; [lia|]. split; [lia|].
  intros ->.
  pose proof (filter_length_le plain_fragment
                (Js.split_go "/" 0 "" (url_toString (RouterInfo.url item)))) as H.
  rewrite split_go_slash_length in H. lia.
Qed.

Lemma sort_keys_depth_weight_witness :
  _weight (sort_keys (entry "get" (UrlString "/ab/:id/cd") "h"))
  <= _level (sort_keys (entry "get" (UrlString "/ab/:id/cd") "h")) + 1.
Proof.
  apply (proj2 (proj2 (proj2 (sort_keys_depth_weight
           (entry "get" (UrlString "/ab/:id/cd") "h"))))).
  reflexivity.
Defined.

Lemma sortRouter_keyed l : sortRouter l = map keyed (Js.sort compare_items l).
Proof. apply sortRouter_unfold. Qed.

(** ** [createFunctionName] *)

Lemma includes_app c s t :
  Js.includes c (s ++ t) = Js.includes c s || Js.includes c t.
Proof.
  induction s as [|d s IH]; simpl; [done|]. by destruct (Ascii.eqb c d).
Qed.

Lemma replace_colon_hash_clean s :
  Js.includes ":" (replace_colon_hash s) = false
  /\ Js.includes "#" (replace_colon_hash s) = false.
Proof.
  induction s as [|c s [IH1 IH2]]; [done|].
  cbn [replace_colon_hash Js.includes]. rewrite IH1, IH2.
  destruct (Ascii.eqb_spec c ":") as [->|E1]; [done|].
  destruct (Ascii.eqb_spec c "#") as [->|E2]; [done|].
  cbn [orb].
  destruct (Ascii.eqb_spec ":" c) as [<-|_]; [done|].
  by destruct (Ascii.eqb_spec "#" c) as [<-|_].
Qed.

Lemma replace_colon_hash_length s :
  String.length (replace_colon_hash s) = String.length s.
Proof. induction s as [|c s IH]; simpl; [done|]. by rewrite IH. Qed.

Lemma string_length_app s t :
  String.length (s ++ t) = (String.length s + String.length t)%nat.
Proof. induction s as [|c s IH]; simpl; [done|]. by rewrite IH. Qed.

(** X4.  The name that [createFunctionName] builds is as long as the
    provider name, a dash and the method name together, and it holds a
    colon or a sharp only if the method name holds one: those of the
    provider name have become dashes. *)
Theorem createFunctionName_clean (target : FunctionModule.t) (functionName : string) :
  Js.strlen (createFunctionName target functionName)
  = Js.strlen (FunctionModule.providerName target) + 1 + Js.strlen functionName
  /\ Js.includes ":" (createFunctionName target functionName)
     = Js.includes ":" functionName
  /\ Js.includes "#" (createFunctionName target functionName)
     = Js.includes "#" functionName.
Proof.
  unfold createFunctionName, Js.strlen.
  destruct (replace_colon_hash_clean (FunctionModule.providerName target)) as [H1 H2].
  rewrite !string_length_app, replace_colon_hash_length, !includes_app, H1, H2.
  simpl. split; [lia|done].
Qed.

(** ** What every group of the table keeps *)

Section CollectFiled.
Context (P : World -> Prop).
Hypothesis set_prefix_P : forall item, preserves P (set_prefix item).
Hypothesis push_P :
  forall p routerInfo, filed_under p routerInfo ->
    preserves P (checkDuplicateAndPush p routerInfo).

Lemma collectRoute_filed env module functionMeta :
  preserves P (collectRoute env module functionMeta).
Proof.
  unfold collectRoute. apply preserves_bind; [apply preserves_this|]. intros c.
  destruct (Js.includes _ _); [apply preserves_throw|].
  apply preserves_bind; [apply set_prefix_P|]. intros _.
  apply preserves_bind; [apply set_prefix_P|]. intros _.
  destruct (ControllerModule.webRouterInfo module); [|apply preserves_ret].
  apply preserves_for_of. intros webRouter. apply push_P.
  by destruct functionMeta.
Qed.

Lemma collectFunctionRoute_filed module functionMeta :
  preserves P (collectFunctionRoute module functionMeta).
Proof.
  unfold collectFunctionRoute.
  apply preserves_bind; [by apply set_prefix_P|]. intros _.
  apply preserves_for_of. intros webRouter.
  destruct (_ ≫= TriggerOptions.path) as [path|].
  - destruct (negb _).
    + apply push_P. by destruct functionMeta.
    + destruct functionMeta; [by apply push_P|apply preserves_ret].
  - destruct functionMeta; [by apply push_P|apply preserves_ret].
Qed.

Lemma collect_filed env controllerModules :
  preserves P (collect env controllerModules).
Proof.
  unfold collect.
  apply preserves_bind.
  { apply preserves_for_of. intros module. apply collectRoute_filed. }
  intros _. apply preserves_bind; [apply preserves_this|]. intros c.
  destruct (truthy _); [|apply preserves_ret].
  apply preserves_for_of. intros module. apply collectFunctionRoute_filed.
Qed.
End CollectFiled.

Lemma checkDuplicateAndPush_pushed prefix routerInfo w :
  snd (checkDuplicateAndPush prefix routerInfo w) = w
  \/ exists prefixList, routes (self w) !! prefix = Some prefixList
       /\ List.filter (is_matched routerInfo) prefixList = []
       /\ snd (checkDuplicateAndPush prefix routerInfo w)
          = pushed prefix prefixList routerInfo w.
Proof.
  destruct (routes (self w) !! prefix) as [prefixList|] eqn:Hget.
  - rewrite (checkDuplicateAndPush_eq _ _ _ _ Hget).
    destruct (List.filter _ _) eqn:Hf; [right; by exists prefixList|by left].
  - left. unfold checkDuplicateAndPush, bind, this. by rewrite Hget.
Qed.

Lemma every_group_insert Q c p l w :
  every_group Q (self w) -> Q p l -> c = set_routes (<[p := l]> (routes (self w))) (self w) ->
  every_group Q c.
Proof.
  intros Hall Hl -> q l'. simpl.
  destruct (decide (p = q)) as [<-|Hne].
  - rewrite lookup_insert_eq. by intros [= <-].
  - rewrite lookup_insert_ne by done. apply Hall.
Qed.

Lemma set_prefix_every_group Q item :
  (forall p, Q p []) ->
  preserves (fun w => every_group Q (self w)) (set_prefix item).
Proof.
  intros Hnil w Hw. rewrite set_prefix_eq. simpl. destruct (has _ _); [done|].
  intros q l. simpl. destruct (decide (RouterPriority.prefix item = q)) as [<-|Hne].
  - rewrite lookup_insert_eq. intros [= <-]. apply Hnil.
  - rewrite lookup_insert_ne by done. apply Hw.
Qed.

Lemma push_filed p routerInfo :
  filed_under p routerInfo ->
  preserves (fun w => every_group (fun p l => Forall (filed_under p) l) (self w))
    (checkDuplicateAndPush p routerInfo).
Proof.
  intros Hinfo w Hw.
  destruct (checkDuplicateAndPush_pushed p routerInfo w) as [->|(l & Hget & _ & ->)];
    [done|].
  eapply every_group_insert; [done| |done].
  apply Forall_app. split; [by apply Hw|by constructor].
Qed.

Lemma url_strict_eq_trans a b c :
  url_strict_eq a b = true -> url_strict_eq b c = true -> url_strict_eq a c = true.
Proof.
  destruct a, b, c; simpl; try done.
  - intros ->%String.eqb_eq. done.
  - intros ->%Nat.eqb_eq. done.
Qed.

Lemma url_strict_eq_sym a b : url_strict_eq a b = url_strict_eq b a.
Proof.
  destruct a, b; simpl; try done.
  - apply String.eqb_sym.
  - apply Nat.eqb_sym.
Qed.

(** Two entries that match each other stand in the way of the same
    entries. *)
Lemma is_matched_same probe routerInfo item :
  is_matched probe routerInfo = true ->
  is_matched probe item = is_matched routerInfo item.
Proof.
  intros Hm. apply is_matched_conflicts in Hm as (Hu & Hn & He & Hr).
  unfold is_matched.
  assert (url_truthy (RouterInfo.url routerInfo) = true) as ->.
  { destruct (RouterInfo.url routerInfo), (RouterInfo.url probe); simpl in *; try done.
    apply String.eqb_eq in He. by subst. }
  assert (Js.is_empty (RouterInfo.requestMethod routerInfo) = false) as ->.
  { rewrite Hr. destruct (Js.is_empty _) eqn:E; [|done]. by apply is_empty_true in E. }
  rewrite Hu, Hr.
  assert (Js.is_empty (RouterInfo.requestMethod probe) = false) as ->.
  { destruct (Js.is_empty _) eqn:E; [|done]. by apply is_empty_true in E. }
  simpl. f_equal.
  destruct (url_strict_eq (RouterInfo.url item) (RouterInfo.url routerInfo)) eqn:E1.
  - by apply (url_strict_eq_trans _ _ _ E1).
  - destruct (url_strict_eq (RouterInfo.url item) (RouterInfo.url probe)) eqn:E2; [|done].
    rewrite url_strict_eq_sym in He.
    by rewrite (url_strict_eq_trans _ _ _ E2 He) in E1.
Qed.

Lemma filter_ext_all {A} (f g : A -> bool) l :
  (forall x, f x = g x) -> List.filter f l = List.filter g l.
Proof. intros H. induction l as [|x l IH]; simpl; [done|]. by rewrite H, IH. Qed.

Lemma push_at_most_one p routerInfo :
  preserves (fun w => every_group (fun _ l => at_most_one_match l) (self w))
    (checkDuplicateAndPush p routerInfo).
Proof.
  intros w Hw.
  destruct (checkDuplicateAndPush_pushed p routerInfo w) as [->|(l & Hget & Hf & ->)];
    [done|].
  eapply every_group_insert; [done| |done].
  intros probe. rewrite List.filter_app, length_app. simpl.
  destruct (is_matched probe routerInfo) eqn:Hm; simpl.
  - rewrite (filter_ext_all _ _ l (fun item => is_matched_same _ _ item Hm)), Hf.
    simpl. lia.
  - pose proof (Hw p l Hget probe). lia.
Qed.

(** ** The table that [finish] leaves *)

Lemma filter_empty_prefix_subtable items w res w' :
  filter_empty_prefix items w = (res, w') ->
  forall p l, routes (self w') !! p = Some l -> routes (self w) !! p = Some l.
Proof.
  revert w res w'. induction items as [|item rest IH]; intros w res w'; simpl.
  - by intros [= <- <-].
  - unfold bind at 1, this at 1.
    destruct (routes (self w) !! RouterPriority.prefix item) as [prefixList|].
    + destruct (0 <? Z.of_nat (length prefixList)).
      * unfold bind. destruct (filter_empty_prefix rest w) as [[kept|e] w1] eqn:Hrest;
          intros [= <- <-]; by apply (IH _ _ _ Hrest).
      * unfold bind at 1, update at 1. intros Hrest p l Hl.
        apply (IH _ _ _ Hrest) in Hl. simpl in Hl.
        by apply lookup_delete_Some in Hl as [_ Hl].
    + by intros [= <- <-].
Qed.

Lemma finish_table w res w' :
  finish w = (res, w') ->
  exists r, (forall p l, r !! p = Some l -> routes (self w) !! p = Some l)
    /\ routes (self w')
       = match res with Ok _ => sortRouter <$> r | Throw _ => r end.
Proof.
  unfold finish, bind at 1, this at 1. unfold bind at 1.
  destruct (filter_empty_prefix _ w) as [[kept|e] w1] eqn:Hf.
  - intros [= <- <-]. exists (routes (self w1)).
    split; [by apply (filter_empty_prefix_subtable _ _ _ _ Hf)|done].
  - intros [= <- <-]. exists (routes (self w1)).
    split; [by apply (filter_empty_prefix_subtable _ _ _ _ Hf)|done].
Qed.

Lemma filter_length_perm {A} (f : A -> bool) l l' :
  l ≡ₚ l' -> length (List.filter f l) = length (List.filter f l').
Proof.
  induction 1 as [|x l l' _ IH|x y l|l1 l2 l3 _ IH1 _ IH2]; simpl.
  - done.
  - destruct (f x); simpl; by rewrite IH.
  - by destruct (f x), (f y).
  - by rewrite IH1.
Qed.

Lemma filter_map_keyed probe l :
  List.filter (is_matched probe) (map keyed l)
  = map keyed (List.filter (is_matched probe) l).
Proof.
  induction l as [|x l IH]; simpl; [done|].
  change (is_matched probe (keyed x)) with (is_matched probe x).
  destruct (is_matched probe x); simpl; by rewrite IH.
Qed.

Lemma sortRouter_filed p l :
  Forall (filed_under p) l -> Forall (filed_under p) (sortRouter l).
Proof.
  intros Hl. rewrite sortRouter_keyed. apply Forall_fmap.
  rewrite (sort_perm compare_items l).
  eapply Forall_impl; [exact Hl|]. by intros x.
Qed.

Lemma sortRouter_at_most_one l :
  at_most_one_match l -> at_most_one_match (sortRouter l).
Proof.
  intros Hl probe. rewrite sortRouter_keyed, filter_map_keyed, length_fmap.
  rewrite (filter_length_perm _ _ l) by apply sort_perm. apply Hl.
Qed.

Lemma sortRouter_in_order l : in_order (sortRouter l).
Proof.
  rewrite sortRouter_keyed. split.
  - intros e He. apply list_elem_of_fmap in He as (a & -> & _). done.
  - intros i j a b Hij Ha Hb.
    apply list_lookup_fmap_Some in Ha as (a' & -> & Ha).
    apply list_lookup_fmap_Some in Hb as (b' & -> & Hb).
    change (may_precede a' b').
    eapply StronglySorted_lookup; [apply sorted_items_may_precede|done..].
Qed.

Lemma analyze_well_kept env w :
  every_group (fun p l => Forall (filed_under p) l) (self w) ->
  every_group (fun _ l => at_most_one_match l) (self w) ->
  every_group (fun p l => Forall (filed_under p) l) (self (snd (analyze env w)))
  /\ every_group (fun _ l => at_most_one_match l) (self (snd (analyze env w)))
  /\ (forall u, fst (analyze env w) = Ok u ->
      every_group (fun _ l => in_order l) (self (snd (analyze env w)))).
Proof.
  intros H1 H2. rewrite analyze_eq. unfold bind.
  assert (every_group (fun p l => Forall (filed_under p) l)
            (self (snd (collect env (controllerModules env) (listed w))))) as H1'.
  { apply (collect_filed (fun w => every_group (fun p l => Forall (filed_under p) l) (self w)));
      [|intros; by apply push_filed|done].
    intros item. by apply set_prefix_every_group. }
  assert (every_group (fun _ l => at_most_one_match l)
            (self (snd (collect env (controllerModules env) (listed w))))) as H2'.
  { apply (collect_filed (fun w => every_group (fun _ l => at_most_one_match l) (self w)));
      [|intros; by apply push_at_most_one|done].
    intros item. apply set_prefix_every_group. intros _ probe. simpl. lia. }
  destruct (collect env _ (listed w)) as [[[]|e] w1]; simpl in *; [|done].
  destruct (finish w1) as [res w2] eqn:Hf. apply finish_table in Hf as (r & Hsub & Hr).
  destruct res as [[]|e]; simpl.
  - split; [|split].
    + intros p l. rewrite Hr, lookup_fmap. destruct (r !! p) as [l0|] eqn:Hp; [|done].
      intros [= <-]. apply sortRouter_filed. eapply H1'. by apply Hsub.
    + intros p l. rewrite Hr, lookup_fmap. destruct (r !! p) as [l0|] eqn:Hp; [|done].
      intros [= <-]. apply sortRouter_at_most_one. eapply H2'. by apply Hsub.
    + intros u _ p l. rewrite Hr, lookup_fmap.
      destruct (r !! p) as [l0|] eqn:Hp; [|done].
      intros [= <-]. apply sortRouter_in_order.
  - split; [|split; [|done]].
    + intros p l. rewrite Hr. intros Hl. eapply H1'. by apply Hsub.
    + intros p l. rewrite Hr. intros Hl. eapply H2'. by apply Hsub.
Qed.

Lemma fresh_well_kept baseDir options : well_kept (fresh baseDir options).
Proof.
  split; [|split]; [intros p l; simpl; by rewrite lookup_empty..|done].
Qed.

Lemma call_well_kept env op w : well_kept w -> well_kept (snd (call env op w)).
Proof.
  intros (H1 & H2 & H3). destruct (isReady (self w)) eqn:Hready.
  - rewrite call_cached by done. simpl. split; [done|]. split; [done|]. by rewrite Hready.
  - rewrite call_run by done.
    destruct (analyze_well_kept env w H1 H2) as (H1' & H2' & Hok).
    destruct (analyze_frame env w) as [Hr' _].
    destruct (analyze env w) as [[[]|e] w1]; simpl in *.
    + split; [done|]. split; [done|]. intros _. by apply (Hok ()).
    + split; [done|]. split; [done|]. rewrite Hr', Hready. done.
Qed.

Lemma calls_well_kept env ops w : well_kept w -> well_kept (calls env ops w).
Proof.
  revert w. induction ops as [|op ops IH]; intros w Hw; simpl; [done|].
  by apply IH, call_well_kept.
Qed.

(** X5.  On an instance that a client has only read from, every entry of
    the table lies in the group of its own prefix, and its handler name
    and its function handler name are the name of its controller, a dot and
    the name of its method. *)
Theorem entries_filed_under_prefix env baseDir options ops :
  every_group (fun p l => Forall (filed_under p) l)
    (self (calls env ops (fresh baseDir options))).
Proof. apply (calls_well_kept env ops _ (fresh_well_kept baseDir options)). Qed.

(** X6.  On an instance that a client has only read from, no group of the
    table holds two entries that a same incoming entry would conflict with:
    for any non-empty method and non-empty pattern, at most one entry of a
    group has that method and that pattern. *)
Theorem groups_without_duplicates env baseDir options ops :
  every_group (fun _ l => at_most_one_match l)
    (self (calls env ops (fresh baseDir options))).
Proof. apply (calls_well_kept env ops _ (fresh_well_kept baseDir options)). Qed.



(** ** The flattened table *)

Lemma foldl_concat_bucket (r : gmap string (list RouterInfo.t)) plist acc :
  (forall rp, rp ∈ plist -> is_Some (r !! RouterPriority.prefix rp)) ->
  foldl (fun routeArr routerPriority =>
           concat_bucket routeArr (r !! RouterPriority.prefix routerPriority))
        acc plist
  = (acc ++ map Some (concat (map (fun rp => default [] (r !! RouterPriority.prefix rp))
                                  plist)))%list.
Proof.
  revert acc. induction plist as [|rp plist IH]; intros acc Hall; simpl.
  - by rewrite app_nil_r.
  - rewrite IH by (intros rp' Hin; apply Hall; by apply list_elem_of_further).
    destruct (Hall rp (list_elem_of_here _ _)) as [l Hl]. rewrite Hl. simpl.
    by rewrite map_app, app_assoc.
Qed.

Lemma getFlattenRouterTable_call env w :
  call env GetFlattenRouterTable w
  = match getFlattenRouterTable env w with
    | (Ok l, w') => (Ok (FlattenRouterTable l), w')
    | (Throw e, w') => (Throw e, w')
    end.
Proof. unfold call, bind. by destruct (getFlattenRouterTable env w) as [[l|e] w']. Qed.

Lemma same_prefix_sorted q l :
  Forall (fun e => RouterInfo.prefix e = q) l -> StronglySorted longer_prefix l.
Proof.
  induction 1 as [|x l Hx Hl IH]; constructor; [done|].
  eapply Forall_impl; [exact Hl|]. intros y Hy. unfold longer_prefix. rewrite Hx, Hy. lia.
Qed.

Lemma flattened_sorted (r : gmap string (list RouterInfo.t)) plist :
  descending_prefix_length plist ->
  (forall p l, r !! p = Some l -> Forall (filed_under p) l) ->
  StronglySorted longer_prefix
    (concat (map (fun rp => default [] (r !! RouterPriority.prefix rp)) plist)).
Proof.
  intros Hd Hfiled. induction plist as [|rp plist IH]; simpl; [constructor|].
  assert (forall rp', Forall (fun e => RouterInfo.prefix e = RouterPriority.prefix rp')
                        (default [] (r !! RouterPriority.prefix rp'))) as Hbucket.
  { intros rp'. destruct (r !! RouterPriority.prefix rp') as [l|] eqn:Hl; simpl; [|done].
    eapply Forall_impl; [by apply Hfiled|]. by intros e [He _]. }
  apply StronglySorted_app_2.
  - intros x y Hx Hy.
    apply list_elem_of_In, in_concat in Hy as (ly & Hly & Hy).
    apply in_map_iff in Hly as (rp' & <- & Hrp').
    apply list_elem_of_In, list_elem_of_lookup in Hrp' as [j Hj].
    pose proof (Hbucket rp) as Hb. pose proof (Hbucket rp') as Hb'.
    rewrite Forall_forall in Hb, Hb'.
    unfold longer_prefix. rewrite (Hb x Hx), (Hb' y) by by apply list_elem_of_In.
    by apply (Hd 0%nat (S j) rp rp'); [lia|..].
  - eapply same_prefix_sorted, Hbucket.
  - apply IH. intros i j a b Hij Ha Hb. apply (Hd (S i) (S j)); [lia|done..].
Qed.

(** X8.  When [getFlattenRouterTable] returns, on an instance that a client
    has only read from, the list is made of the groups of the table, one
    after the other in the order of the priority list: it holds no
    [undefined], an entry is in it exactly when it is in a group of the
    table, and of two of its entries the earlier one has the prefix that is
    at least as long. *)
Theorem flattenRouterTable_groups env baseDir options ops flat :
  fst (getFlattenRouterTable env (calls env ops (fresh baseDir options))) = Ok flat ->
  flat = map Some
           (flattened (self (snd (getFlattenRouterTable env
                                    (calls env ops (fresh baseDir options))))))
  /\ (forall e, Some e ∈ flat <->
        exists p l,
          routes (self (snd (getFlattenRouterTable env
                               (calls env ops (fresh baseDir options))))) !! p = Some l
          /\ e ∈ l)
  /\ (forall i j a b, (i < j)%nat -> flat !! i = Some (Some a) ->
        flat !! j = Some (Some b) -> longer_prefix a b).
Proof.
  intros Hf.
  pose proof (call_returns env GetFlattenRouterTable
                (calls env ops (fresh baseDir options))) as Hret.
  pose proof (call_consistent env GetFlattenRouterTable _
                (calls_consistent env ops _ (fresh_consistent baseDir options))) as Hcons.
  pose proof (call_well_kept env GetFlattenRouterTable _
                (calls_well_kept env ops _ (fresh_well_kept baseDir options))) as Hkept.
  rewrite getFlattenRouterTable_call in Hret, Hcons, Hkept.
  destruct (getFlattenRouterTable env _) as [[l|e] w1]; simpl in *; [|done].
  simplify_eq. destruct (Hret _ _ eq_refl) as [Hr Hv]. simpl in Hv.
  destruct Hcons as ((_ & Hkeys) & _ & Hc). destruct (Hc Hr) as [_ Hd].
  destruct Hkept as (Hfiled & _ & _).
  assert (flat = map Some (flattened (self w1))) as ->.
  { injection Hv as ->. rewrite foldl_concat_bucket; [done|].
    intros rp Hrp. apply Hkeys. apply list_elem_of_fmap. by exists rp. }
  split; [done|]. split.
  - intros e. rewrite list_elem_of_fmap. split.
    + intros (e' & [= <-] & He).
      apply list_elem_of_In, in_concat in He as (le & Hle & He).
      apply in_map_iff in Hle as (rp & <- & Hrp).
      destruct (routes (self w1) !! RouterPriority.prefix rp) as [l|] eqn:Hl; simpl in He;
        [|done].
      exists (RouterPriority.prefix rp), l. split; [done|]. by apply list_elem_of_In.
    + intros (p & l & Hl & He). exists e. split; [done|].
      assert (p ∈ prefixes (routesPriority (self w1))) as Hp by (apply Hkeys; by eexists).
      apply list_elem_of_fmap in Hp as (rp & -> & Hrp).
      apply list_elem_of_In, in_concat. exists l. split; [|by apply list_elem_of_In].
      apply in_map_iff. exists rp. rewrite Hl. split; [done|]. by apply list_elem_of_In.
  - intros i j a b Hij Ha Hb.
    apply list_lookup_fmap_Some in Ha as (a' & [= <-] & Ha).
    apply list_lookup_fmap_Some in Hb as (b' & [= <-] & Hb).
    eapply StronglySorted_lookup; [|done..].
    by apply flattened_sorted.
Qed.

Lemma flattenRouterTable_groups_witness :
  patterns (flattened (self (snd (getFlattenRouterTable env_api (fresh "" no_options)))))
  = ["/users/:id"; "/users"; "/"]
  /\ fst (getFlattenRouterTable env_api (fresh "" no_options))
     = Ok (map Some (flattened (self (snd (getFlattenRouterTable env_api
                                             (fresh "" no_options)))))).
Proof.
  split; [vm_compute; reflexivity|].
  assert (fst (getFlattenRouterTable env_api (fresh "" no_options))
          = Ok (foldl (fun routeArr routerPriority =>
                  concat_bucket routeArr
                    (routes (self (snd (getFlattenRouterTable env_api (fresh "" no_options))))
                     !! RouterPriority.prefix routerPriority))
                  [] (routesPriority
                        (self (snd (getFlattenRouterTable env_api (fresh "" no_options)))))))
    as H by (vm_compute; reflexivity).
  etrans; [exact H|]. apply (f_equal Ok).
  exact (proj1 (flattenRouterTable_groups env_api "" no_options [] _ H)).
Defined.

(** ** The errors of the collection *)

Lemma returns_or_fatal_ret {A} (P : World -> Prop) (a : A) : returns_or_fatal P (ret a) P.
Proof. by intros w. Qed.

Lemma returns_or_fatal_this (P : World -> Prop) : returns_or_fatal P this P.
Proof. by intros w. Qed.

Lemma returns_or_fatal_bind {A B} P Q R (m : M A) (k : A -> M B) :
  returns_or_fatal P m Q -> (forall a, returns_or_fatal Q (k a) R) ->
  returns_or_fatal P (bind m k) R.
Proof.
  intros Hm Hk w HP. unfold bind. specialize (Hm w HP).
  destruct (m w) as [[a|e] w1]; [by apply Hk|done].
Qed.

Lemma returns_or_fatal_for_of {A} I (l : list A) body :
  (forall x, returns_or_fatal I (body x) I) -> returns_or_fatal I (for_of l body) I.
Proof.
  intros Hbody. induction l as [|x l IH]; simpl.
  - apply returns_or_fatal_ret.
  - eapply returns_or_fatal_bind; [apply Hbody|by intros _].
Qed.

Lemma returns_or_fatal_weaken {A} (P Q Q' : World -> Prop) (m : M A) :
  (forall w, Q w -> Q' w) -> returns_or_fatal P m Q -> returns_or_fatal P m Q'.
Proof.
  intros HQ Hm w HP. specialize (Hm w HP). destruct (m w) as [[a|e] w1]; auto.
Qed.

Lemma has_with_group p item w :
  has p (self (with_group item w))
  = if decide (RouterPriority.prefix item = p) then true else has p (self w).
Proof.
  unfold has. simpl. destruct (decide _) as [<-|Hne].
  - by rewrite lookup_insert_eq.
  - by rewrite lookup_insert_ne.
Qed.

Lemma set_prefix_has item p w :
  has p (self w) = true \/ RouterPriority.prefix item = p ->
  has p (self (snd (set_prefix item w))) = true.
Proof.
  intros H. rewrite set_prefix_eq. simpl.
  destruct (has (RouterPriority.prefix item) (self w)) eqn:Hhas.
  - destruct H as [|<-]; done.
  - rewrite has_with_group. destruct (decide _); [done|]. by destruct H.
Qed.

Lemma set_prefix_returns item w : fst (set_prefix item w) = Ok tt.
Proof. by rewrite set_prefix_eq. Qed.

Lemma push_has_groups p q prefix routerInfo :
  prefix = p \/ prefix = q ->
  returns_or_fatal (has_groups p q) (checkDuplicateAndPush prefix routerInfo)
    (has_groups p q).
Proof.
  intros Hpq w [Hp Hq].
  assert (has prefix (self w) = true) as Hhas by (by destruct Hpq as [->| ->]).
  unfold has in Hhas. destruct (routes (self w) !! prefix) as [l|] eqn:Hget; [|done].
  rewrite (checkDuplicateAndPush_eq _ _ _ _ Hget).
  destruct (List.filter _ _).
  - unfold has_groups, has in *. simpl.
    split.
    + destruct (decide (prefix = p)) as [->|Hne];
        [by rewrite lookup_insert_eq|by rewrite lookup_insert_ne].
    + destruct (decide (prefix = q)) as [->|Hne];
        [by rewrite lookup_insert_eq|by rewrite lookup_insert_ne].
  - right. by eexists _, _, _.
Qed.

Lemma collectRoute_fatal env module functionMeta :
  returns_or_fatal (fun _ => True) (collectRoute env module functionMeta) (fun _ => True).
Proof.
  intros w _. unfold collectRoute. unfold bind at 1, this at 1.
  set (p := resolved_prefix env (options (self w)) module).
  set (q := ignorePrefix_of module).
  destruct (Js.includes "*" p) eqn:Hstar.
  { left. by exists p. }
  match goal with |- context [bind (set_prefix ?i1) (fun _ => bind (set_prefix ?i2) _)] =>
    set (item1 := i1); set (item2 := i2) end.
  unfold bind at 1.
  pose proof (set_prefix_returns item1 w) as Hr1.
  pose proof (set_prefix_has item1 p w (or_intror eq_refl)) as Hp1.
  destruct (set_prefix item1 w) as [r1 w1]; simpl in *. subst r1.
  unfold bind at 1.
  pose proof (set_prefix_returns item2 w1) as Hr2.
  pose proof (set_prefix_has item2 p w1 (or_introl Hp1)) as Hp2.
  pose proof (set_prefix_has item2 q w1 (or_intror eq_refl)) as Hq2.
  destruct (set_prefix item2 w1) as [r2 w2]; simpl in *. subst r2.
  destruct (ControllerModule.webRouterInfo module) as [members|]; [|done].
  eapply (returns_or_fatal_weaken (has_groups p q) (has_groups p q) (fun _ => True));
    [done| |by split].
  apply returns_or_fatal_for_of. intros webRouter.
  apply push_has_groups.
  destruct functionMeta; simpl; destruct (truthy _); auto.
Qed.

Lemma collectFunctionRoute_fatal module functionMeta :
  returns_or_fatal (fun _ => True) (collectFunctionRoute module functionMeta)
    (fun _ => True).
Proof.
  intros w _. unfold collectFunctionRoute.
  match goal with |- context [bind (set_prefix ?i1) _] => set (item1 := i1) end.
  unfold bind at 1.
  pose proof (set_prefix_returns item1 w) as Hr1.
  pose proof (set_prefix_has item1 "/" w (or_intror eq_refl)) as Hp1.
  destruct (set_prefix item1 w) as [r1 w1]; simpl in *. subst r1.
  eapply (returns_or_fatal_weaken (has_groups "/" "/") (has_groups "/" "/") (fun _ => True));
    [done| |by split].
  apply returns_or_fatal_for_of. intros webRouter.
  destruct (_ ≫= TriggerOptions.path) as [path|].
  - destruct (negb _); [apply push_has_groups; by left|].
    destruct functionMeta; [apply push_has_groups; by left|apply returns_or_fatal_ret].
  - destruct functionMeta; [apply push_has_groups; by left|apply returns_or_fatal_ret].
Qed.

Lemma collect_fatal env controllerModules :
  returns_or_fatal (fun _ => True) (collect env controllerModules) (fun _ => True).
Proof.
  unfold collect.
  eapply returns_or_fatal_bind.
  { apply returns_or_fatal_for_of. intros module. apply collectRoute_fatal. }
  intros _. eapply returns_or_fatal_bind; [apply returns_or_fatal_this|]. intros c.
  destruct (truthy _); [|apply returns_or_fatal_ret].
  apply returns_or_fatal_for_of. intros module. apply collectFunctionRoute_fatal.
Qed.

Lemma analyze_fatal env w e :
  groups_agree (self w) -> fst (analyze env w) = Throw e -> fatal e.
Proof.
  intros Hagree. rewrite analyze_eq. unfold bind.
  pose proof (collect_agree env (controllerModules env) (listed w) Hagree) as Ha.
  pose proof (collect_fatal env (controllerModules env) (listed w) I) as Hf.
  destruct (collect env _ (listed w)) as [[[]|e1] w1]; simpl in *.
  - destruct (finish_ok w1 Ha) as (w2 & -> & _). done.
  - by intros [= <-].
Qed.

(** X9.  On an instance created with an empty [baseDir], so that no
    directory is loaded, and that a client has only read from, with every
    call awaited before the next one was made, no lookup of a group fails
    during a pass: [checkDuplicateAndPush] finds the group it pushes to, and
    the filter of [analyze] finds the group of every priority record.  With
    the registry of the model, which hands every listed class with the
    metadata that the collector reads, a read operation that throws
    therefore throws one of the two errors that the collection raises on
    purpose: the error for a prefix that holds a star, with the message
    that names the prefix, or the error for a duplicate route. *)
Theorem read_throws_fatal env options ops op e :
  fst (call env op (calls env ops (fresh "" options))) = Throw e -> fatal e.
Proof.
  intros Hthrow.
  pose proof (calls_consistent env ops _ (fresh_consistent "" options))
    as (Hagree & _).
  destruct (call env op _) as [[v|e1] w1] eqn:Hcall; simpl in *; [done|].
  simplify_eq. apply call_throws in Hcall as [_ Hrun].
  apply (analyze_fatal env _ e Hagree). by rewrite Hrun.
Qed.

Lemma read_throws_fatal_witness :
  fatal (MidwayCommonError "Router prefix /api/* can't set string with *").
Proof.
  apply (read_throws_fatal env_star_prefix no_options [] GetRouterTable).
  vm_compute. reflexivity.
Defined.

(** ** Every declared route is collected *)

Lemma holds_extends p u m h c0 c : extends c0 c -> holds p u m h c0 -> holds p u m h c.
Proof.
  intros (_ & _ & Hg) (l & e & Hl & He & Hrest).
  destruct (Hg p l Hl) as [l' Hl']. exists (l ++ l')%list, e.
  split; [done|]. split; [|done]. apply elem_of_app. by left.
Qed.

Lemma preserves_holds {A} (m : M A) p u me h :
  (forall c0, preserves (fun w => extends c0 (self w)) m) ->
  preserves (fun w => holds p u me h (self w)) m.
Proof.
  intros Hm w Hw. eapply holds_extends; [|exact Hw].
  apply (Hm (self w) w). apply extends_refl.
Qed.

Lemma for_of_returns_each {A} (body : A -> M unit) (Q : A -> World -> Prop)
    (I : World -> Prop) :
  (forall x w w', I w -> body x w = (Ok tt, w') -> Q x w') ->
  (forall x y, preserves (Q x) (body y)) ->
  (forall y, preserves I (body y)) ->
  forall l w w', I w -> for_of l body w = (Ok tt, w') -> forall x, x ∈ l -> Q x w'.
Proof.
  intros Hest Hstable HI l. induction l as [|y l IH]; intros w w' Hw Hrun x Hx.
  - by apply elem_of_nil in Hx.
  - simpl in Hrun. apply bind_inv_Ok in Hrun as ([] & w1 & Hy & Hrest).
    pose proof (HI y w Hw) as Hw1. rewrite Hy in Hw1. simpl in Hw1.
    apply elem_of_cons in Hx as [->|Hx].
    + pose proof (preserves_for_of (Q y) l body (fun z => Hstable y z) w1
                    (Hest y w w1 Hw Hy)) as H.
      by rewrite Hrest in H.
    + by apply (IH w1 w').
Qed.

Lemma push_returns_holds p routerInfo w w' :
  checkDuplicateAndPush p routerInfo w = (Ok tt, w') ->
  holds p (RouterInfo.url routerInfo) (RouterInfo.requestMethod routerInfo)
    (RouterInfo.handlerName routerInfo) (self w').
Proof.
  destruct (routes (self w) !! p) as [l|] eqn:Hget.
  - rewrite (checkDuplicateAndPush_eq _ _ _ _ Hget).
    destruct (List.filter _ _); [|done]. intros Heq. injection Heq as <-.
    exists (l ++ [routerInfo])%list, routerInfo. simpl. rewrite lookup_insert_eq.
    split; [done|]. split; [|done]. apply elem_of_app. right. apply list_elem_of_here.
  - unfold checkDuplicateAndPush, bind, this. by rewrite Hget.
Qed.

Lemma set_prefix_options o item :
  preserves (fun w => options (self w) = o) (set_prefix item).
Proof. intros w Hw. rewrite set_prefix_eq. simpl. by destruct (has _ _). Qed.

Lemma push_options o prefix routerInfo :
  preserves (fun w => options (self w) = o) (checkDuplicateAndPush prefix routerInfo).
Proof.
  intros w Hw.
  destruct (checkDuplicateAndPush_cases prefix routerInfo w) as [->|(l & _ & ->)]; done.
Qed.

Lemma collectRoute_options env o module functionMeta :
  preserves (fun w => options (self w) = o) (collectRoute env module functionMeta).
Proof.
  apply collectRoute_preserves; intros; [apply set_prefix_options|apply push_options].
Qed.

Lemma collectRoute_extends env c0 module functionMeta :
  preserves (fun w => extends c0 (self w)) (collectRoute env module functionMeta).
Proof.
  apply collectRoute_preserves; intros; [apply set_prefix_extends|apply push_extends].
Qed.

Lemma collectFunctionRoute_extends c0 module functionMeta :
  preserves (fun w => extends c0 (self w)) (collectFunctionRoute module functionMeta).
Proof.
  apply collectFunctionRoute_preserves; intros;
    [apply set_prefix_extends|apply push_extends].
Qed.

Lemma preserves_holds_members {A} (m : M A) env o module :
  (forall c0, preserves (fun w => extends c0 (self w)) m) ->
  preserves (fun w => holds_members env o module (self w)) m.
Proof.
  intros Hm w Hw members webRouter Hmem Hin.
  apply (preserves_holds m _ _ _ _ Hm w). by eapply Hw.
Qed.

(** A controller that [collectRoute] has gone through has an entry for
    each of its members. *)
Lemma collectRoute_registers env module functionMeta w w' :
  collectRoute env module functionMeta w = (Ok tt, w') ->
  holds_members env (options (self w)) module (self w').
Proof.
  unfold collectRoute. unfold bind at 1, this at 1.
  destruct (Js.includes "*" _); [done|].
  intros Hrun.
  apply bind_inv_Ok in Hrun as ([] & w1 & _ & Hrun).
  apply bind_inv_Ok in Hrun as ([] & w2 & _ & Hrun).
  intros members webRouter Hmem Hin. rewrite Hmem in Hrun.
  revert webRouter Hin.
  eapply (for_of_returns_each _
            (fun webRouter w1 =>
               holds (group_of env (options (self w)) module webRouter)
                 (RouterOption.path webRouter) (RouterOption.requestMethod webRouter)
                 (ControllerModule.providerName module ++ "." ++ RouterOption.method webRouter)
                 (self w1))
            (fun _ => True)); [| | |exact I|exact Hrun].
  - intros x w3 w3' _ Hpush. apply push_returns_holds in Hpush.
    unfold group_of. by destruct functionMeta.
  - intros x y. apply preserves_holds. intros c0. apply push_extends.
  - by intros y w3.
Qed.

Lemma collect_registers env o w w' :
  options (self w) = o ->
  collect env (controllerModules env) w = (Ok tt, w') ->
  forall module, module ∈ controllerModules env -> holds_members env o module (self w').
Proof.
  intros Ho Hrun. unfold collect in Hrun.
  apply bind_inv_Ok in Hrun as ([] & w1 & Hloop & Hrest).
  intros module Hin.
  assert (holds_members env o module (self w1)) as H1.
  { revert module Hin.
    eapply (for_of_returns_each _
              (fun module w => holds_members env o module (self w))
              (fun w => options (self w) = o)); [| | |exact Ho|exact Hloop].
    - intros x w0 w0' <- Hx. by apply collectRoute_registers in Hx.
    - intros x y. apply preserves_holds_members. intros c0. apply collectRoute_extends.
    - intros y. apply collectRoute_options. }
  unfold bind at 1, this at 1 in Hrest.
  destruct (truthy _).
  - pose proof (preserves_for_of (fun w => holds_members env o module (self w))
                  (fnModules env) (fun module => collectFunctionRoute module false)) as Hp.
    specialize (Hp (fun y => preserves_holds_members _ env o module
                               (fun c0 => collectFunctionRoute_extends c0 y false)) w1 H1).
    by rewrite Hrest in Hp.
  - by injection Hrest as <-.
Qed.

Lemma finish_holds w w' p u m h :
  groups_agree (self w) -> finish w = (Ok tt, w') ->
  holds p u m h (self w) -> holds p u m h (self w').
Proof.
  intros [Hnd Hkeys] Hrun (l & e & Hl & He & Hu & Hm & Hh).
  destruct (filter_empty_prefix_ok (routesPriority (self w)) w Hnd) as (r & Hf & Hr).
  { intros q. apply Hkeys. }
  rewrite (finish_eq _ _ _ Hf) in Hrun. injection Hrun as <-.
  exists (sortRouter l), (keyed e). simpl. rewrite lookup_fmap, Hr.
  unfold pruned_lookup. rewrite Hl.
  split.
  - destruct l; [by apply elem_of_nil in He|done].
  - split; [|done]. rewrite sortRouter_keyed. apply list_elem_of_fmap.
    exists e. split; [done|]. by rewrite (sort_perm compare_items l).
Qed.

Lemma analyze_options env w :
  options (self (snd (analyze env w))) = options (self w).
Proof.
  rewrite analyze_eq. unfold bind.
  pose proof (collect_preserves (fun w1 => options (self w1) = options (self w))
                (fun item _ => set_prefix_options _ item)
                (fun p r => push_options _ p r)
                env (controllerModules env) (listed w) eq_refl) as Ho.
  destruct (collect env _ (listed w)) as [[[]|e] w1]; simpl in *; [|done].
  destruct (finish w1) as [[[]|e] w2] eqn:Hf; simpl.
  - apply finish_returns in Hf as (kept & r & _ & ->). done.
  - unfold finish, bind at 1, this at 1 in Hf.
    apply bind_inv_Throw in Hf as [Hf|(kept & w3 & _ & Hf)]; [|done].
    apply filter_empty_prefix_frame in Hf as [[r ->] _]. done.
Qed.

Lemma analyze_registers env w w' :
  groups_agree (self w) -> analyze env w = (Ok tt, w') ->
  forall module, module ∈ controllerModules env ->
    holds_members env (options (self w)) module (self w').
Proof.
  intros Hagree. rewrite analyze_eq. intros Hrun.
  apply bind_inv_Ok in Hrun as ([] & w1 & Hcollect & Hfinish).
  intros module Hin members webRouter Hmem Hmember.
  pose proof (collect_agree env (controllerModules env) (listed w) Hagree) as Ha.
  rewrite Hcollect in Ha.
  eapply finish_holds; [exact Ha|exact Hfinish|].
  by eapply (collect_registers env (options (self w)) (listed w) w1 eq_refl Hcollect).
Qed.

Lemma call_complete env o op w :
  consistent w -> complete env o w -> complete env o (snd (call env op w)).
Proof.
  intros (Hagree & _) [Ho Hc]. destruct (isReady (self w)) eqn:Hready.
  - rewrite call_cached by done. simpl. split; [done|]. by rewrite Hready.
  - rewrite call_run by done.
    pose proof (analyze_options env w) as Ho'.
    pose proof (analyze_registers env w) as Hreg.
    destruct (analyze_frame env w) as [Hr' _].
    destruct (analyze env w) as [[[]|e] w1]; simpl in *.
    + split; [unfold readied; simpl; congruence|].
      intros _ module Hin. rewrite <- Ho. by apply (Hreg w1).
    + split; [congruence|]. rewrite Hr', Hready. done.
Qed.

Lemma calls_complete env o ops w :
  consistent w -> complete env o w -> complete env o (calls env ops w).
Proof.
  revert w. induction ops as [|op ops IH]; intros w Hw Hc; simpl; [done|].
  apply IH; [by apply call_consistent|by apply call_complete].
Qed.

(** X10.  When [getRouterTable] returns, on an instance that a client has
    only read from, the table holds an entry for every member of every
    controller of the registry: it lies in the group of the controller's
    own prefix when the member ignores the global prefix and in the group of
    the resolved prefix otherwise, and it has the pattern and the request
    method of the member and the handler name made of the name of the
    controller, a dot and the name of the method. *)
Theorem routerTable_holds_every_member env baseDir options ops table :
  fst (getRouterTable env (calls env ops (fresh baseDir options))) = Ok table ->
  forall module members webRouter,
    module ∈ controllerModules env ->
    ControllerModule.webRouterInfo module = Some members ->
    webRouter ∈ members ->
    exists l e,
      table !! group_of env options module webRouter = Some l /\ e ∈ l
      /\ RouterInfo.url e = RouterOption.path webRouter
      /\ RouterInfo.requestMethod e = RouterOption.requestMethod webRouter
      /\ RouterInfo.handlerName e
         = ControllerModule.providerName module ++ "." ++ RouterOption.method webRouter.
Proof.
  intros Ht module members webRouter Hin Hmem Hmember.
  apply getRouterTable_returns in Ht as (Hr & -> & Hw).
  pose proof (calls_consistent env ops _ (fresh_consistent baseDir options)) as Hcons.
  assert (complete env options (fresh baseDir options)) as Hfresh by (by split).
  pose proof (call_complete env options GetRouterTable _ Hcons
                (calls_complete env options ops _ (fresh_consistent baseDir options) Hfresh))
    as [_ Hc].
  rewrite Hw in Hc. by apply (Hc Hr module Hin members webRouter).
Qed.

Lemma routerTable_holds_every_member_witness :
  exists l e,
    routes (self (snd (getRouterTable env_api (fresh "" no_options)))) !! "/api/v2" = Some l
    /\ e ∈ l
    /\ RouterInfo.url e = UrlString "/users/:id"
    /\ RouterInfo.requestMethod e = "get"
    /\ RouterInfo.handlerName e = "v2.show".
Proof.
  apply (routerTable_holds_every_member env_api "" no_options []
           (routes (self (snd (getRouterTable env_api (fresh "" no_options)))))
           ltac:(vm_compute; reflexivity)
           (controller "v2" "/api/v2" false [web "get" "/users/:id" "show"])
           [web "get" "/users/:id" "show"] (web "get" "/users/:id" "show")).
  - unfold env_api, env_of. simpl. repeat constructor.
  - reflexivity.
  - apply list_elem_of_here.
Defined.

(** ** Function modules *)

Lemma collect_options env l o :
  preserves (fun w => options (self w) = o) (collect env l).
Proof. apply collect_preserves; intros; [apply set_prefix_options|apply push_options]. Qed.

Lemma for_of_ext {A} (l : list A) (body body' : A -> M unit) w :
  (forall x w1, body x w1 = body' x w1) -> for_of l body w = for_of l body' w.
Proof.
  intros H. revert w. induction l as [|x l IH]; intros w; simpl; [done|].
  unfold bind. rewrite H. destruct (body' x w) as [[[]|e] w1]; [apply IH|done].
Qed.




(** X12.  With a registry that lists no controller, on a fresh instance
    that either does not include the function routers or finds no function
    module, the three read operations return the empty table, the empty
    priority list and the empty flattened list, after one listing of the
    controllers. *)
Theorem empty_registry env baseDir options :
  controllerModules env = [] ->
  truthy (includeFunctionRouter options) = false \/ fnModules env = [] ->
  fst (getRouterTable env (fresh baseDir options)) = Ok ∅
  /\ fst (getRoutePriorityList env (fresh baseDir options)) = Ok []
  /\ fst (getFlattenRouterTable env (fresh baseDir options)) = Ok []
  /\ forall op, listModuleCalls (snd (call env op (fresh baseDir options))) = 1%nat.
Proof.
  intros Hc Hf.
  assert (analyze env (fresh baseDir options)
          = (Ok tt, listed (fresh baseDir options))) as Hrun.
  { rewrite analyze_eq, Hc. unfold bind at 1.
    assert (collect env [] (listed (fresh baseDir options))
            = (Ok tt, listed (fresh baseDir options))) as ->.
    { unfold collect. simpl. unfold bind, ret, this. simpl.
      destruct Hf as [-> | ->]; [done|]. by destruct (truthy _). }
    unfold finish, bind, this, update. simpl.
    unfold listed, fresh, set_routesPriority, set_routes. simpl. by rewrite fmap_empty. }
  assert (forall op, call env op (fresh baseDir options)
                     = (Ok (view op (set_isReady true (new_WebRouterCollector baseDir options))),
                        readied (listed (fresh baseDir options)))) as Hcall.
  { intros op. rewrite call_run by done. by rewrite Hrun. }
  split; [|split; [|split]].
  - pose proof (Hcall GetRouterTable) as H. rewrite getRouterTable_call in H.
    destruct (getRouterTable env _) as [[m|e] w1]; by simplify_eq.
  - pose proof (Hcall GetRoutePriorityList) as H. rewrite getRoutePriorityList_call in H.
    destruct (getRoutePriorityList env _) as [[m|e] w1]; by simplify_eq.
  - pose proof (Hcall GetFlattenRouterTable) as H. rewrite getFlattenRouterTable_call in H.
    destruct (getFlattenRouterTable env _) as [[m|e] w1]; by simplify_eq.
  - intros op. by rewrite Hcall.
Qed.

Lemma empty_registry_witness :
  fst (getRouterTable (env_of []) (fresh "" no_options)) = Ok ∅.
Proof.
  apply (empty_registry (env_of []) "" no_options); [reflexivity|by left].
Defined.

Lemma preserves_holds_trigger {A} (m : M A) module webRouter :
  (forall c0, preserves (fun w => extends c0 (self w)) m) ->
  preserves (fun w => holds_trigger module webRouter (self w)) m.
Proof.
  intros Hm w Hw path Hpath Hne.
  apply (preserves_holds m _ _ _ _ Hm w). by eapply Hw.
Qed.

Lemma preserves_holds_triggers {A} (m : M A) module :
  (forall c0, preserves (fun w => extends c0 (self w)) m) ->
  preserves (fun w => holds_triggers module (self w)) m.
Proof.
  intros Hm w Hw webRouter Hin.
  apply (preserves_holds_trigger m _ _ Hm w). by apply Hw.
Qed.

Lemma collectFunctionRoute_registers module functionMeta w w' :
  collectFunctionRoute module functionMeta w = (Ok tt, w') ->
  holds_triggers module (self w').
Proof.
  unfold collectFunctionRoute. intros Hrun.
  apply bind_inv_Ok in Hrun as ([] & w1 & _ & Hrun).
  intros webRouter Hin. revert webRouter Hin.
  eapply (for_of_returns_each _
            (fun webRouter w2 => holds_trigger module webRouter (self w2))
            (fun _ => True)); [| | |exact I|exact Hrun].
  - intros x w2 w2' _ Hbody path Hpath Hne. cbv beta zeta in Hbody.
    rewrite Hpath in Hbody.
    destruct (Js.is_empty path) eqn:He; [by apply is_empty_true in He|].
    simpl in Hbody. apply push_returns_holds in Hbody. by destruct functionMeta.
  - intros x y. apply preserves_holds_trigger. intros c0. cbv beta zeta.
    destruct (_ ≫= TriggerOptions.path) as [p|].
    + destruct (negb _); [apply push_extends|].
      destruct functionMeta; [apply push_extends|apply preserves_ret].
    + destruct functionMeta; [apply push_extends|apply preserves_ret].
  - by intros y w2.
Qed.

Lemma collect_registers_functions env o w w' :
  options (self w) = o -> truthy (includeFunctionRouter o) = true ->
  collect env (controllerModules env) w = (Ok tt, w') ->
  forall module, module ∈ fnModules env -> holds_triggers module (self w').
Proof.
  intros Ho Hon Hrun. unfold collect in Hrun.
  apply bind_inv_Ok in Hrun as ([] & w1 & Hloop & Hrest).
  pose proof (preserves_for_of (fun w1 => options (self w1) = o) (controllerModules env)
                (fun module => collectRoute env module false)
                (fun y => collectRoute_options env _ y false) w Ho) as Ho1.
  rewrite Hloop in Ho1. simpl in Ho1.
  unfold bind at 1, this at 1 in Hrest. rewrite Ho1, Hon in Hrest.
  eapply (for_of_returns_each _
            (fun module w => holds_triggers module (self w))
            (fun _ => True)); [| | |exact I|exact Hrest].
  - intros x w0 w0' _ Hx. by apply collectFunctionRoute_registers in Hx.
  - intros x y. apply preserves_holds_triggers. intros c0.
    apply collectFunctionRoute_extends.
  - by intros y w0.
Qed.

Lemma analyze_registers_functions env w w' :
  groups_agree (self w) -> truthy (includeFunctionRouter (options (self w))) = true ->
  analyze env w = (Ok tt, w') ->
  forall module, module ∈ fnModules env -> holds_triggers module (self w').
Proof.
  intros Hagree Hon. rewrite analyze_eq. intros Hrun.
  apply bind_inv_Ok in Hrun as ([] & w1 & Hcollect & Hfinish).
  intros module Hin webRouter Hmember path Hpath Hne.
  pose proof (collect_agree env (controllerModules env) (listed w) Hagree) as Ha.
  rewrite Hcollect in Ha.
  eapply finish_holds; [exact Ha|exact Hfinish|].
  by eapply (collect_registers_functions env (options (self w)) (listed w) w1 eq_refl Hon
               Hcollect).
Qed.

Lemma call_complete_functions env o op w :
  consistent w -> complete_functions env o w ->
  complete_functions env o (snd (call env op w)).
Proof.
  intros (Hagree & _) [Ho Hc]. destruct (isReady (self w)) eqn:Hready.
  - rewrite call_cached by done. simpl. split; [done|]. by rewrite Hready.
  - rewrite call_run by done.
    pose proof (analyze_options env w) as Ho'.
    pose proof (analyze_registers_functions env w) as Hreg.
    destruct (analyze_frame env w) as [Hr' _].
    destruct (analyze env w) as [[[]|e] w1]; simpl in *.
    + split; [unfold readied; simpl; congruence|].
      intros _ Hon module Hin. apply (Hreg w1); [done| |done..]. by rewrite Ho.
    + split; [congruence|]. rewrite Hr', Hready. done.
Qed.

Lemma calls_complete_functions env o ops w :
  consistent w -> complete_functions env o w -> complete_functions env o (calls env ops w).
Proof.
  revert w. induction ops as [|op ops IH]; intros w Hw Hc; simpl; [done|].
  apply IH; [by apply call_consistent|by apply call_complete_functions].
Qed.

(** X13.  When [getRouterTable] returns, on an instance that includes the
    function routers and that a client has only read from, the group [/] of
    the table holds an entry for every trigger of every function module
    that declares a non-empty path: its pattern is that path, its request
    method is the method of the trigger, or [get] when the trigger names
    none, and its handler name is the name of the module, a dot and the
    name of the method. *)
Theorem routerTable_holds_every_trigger env baseDir options ops table :
  truthy (includeFunctionRouter options) = true ->
  fst (getRouterTable env (calls env ops (fresh baseDir options))) = Ok table ->
  forall module webRouter path,
    module ∈ fnModules env ->
    webRouter ∈ FunctionModule.webRouterInfo module ->
    Trigger.metadata webRouter ≫= TriggerOptions.path = Some path -> path <> "" ->
    exists l e,
      table !! "/" = Some l /\ e ∈ l
      /\ RouterInfo.url e = UrlString path
      /\ RouterInfo.requestMethod e
         = default "get" (Trigger.metadata webRouter ≫= TriggerOptions.method)
      /\ RouterInfo.handlerName e
         = FunctionModule.providerName module ++ "." ++ Trigger.methodName webRouter.
Proof.
  intros Hon Ht module webRouter path Hin Hmember Hpath Hne.
  apply getRouterTable_returns in Ht as (Hr & -> & Hw).
  pose proof (calls_consistent env ops _ (fresh_consistent baseDir options)) as Hcons.
  assert (complete_functions env options (fresh baseDir options)) as Hfresh by (by split).
  pose proof (call_complete_functions env options GetRouterTable _ Hcons
                (calls_complete_functions env options ops _
                   (fresh_consistent baseDir options) Hfresh)) as [_ Hc].
  rewrite Hw in Hc. by apply (Hc Hr Hon module Hin webRouter Hmember path).
Qed.

Lemma routerTable_holds_every_trigger_witness :
  exists l e,
    routes (self (snd (getRouterTable env_functions (fresh "" with_functions)))) !! "/"
    = Some l
    /\ e ∈ l
    /\ RouterInfo.url e = UrlString "/invoke"
    /\ RouterInfo.requestMethod e = "get"
    /\ RouterInfo.handlerName e = "fn.handler".
Proof.
  refine (routerTable_holds_every_trigger env_functions "" with_functions []
            (routes (self (snd (getRouterTable env_functions (fresh "" with_functions)))))
            eq_refl ltac:(vm_compute; reflexivity) fn_module invoke_trigger "/invoke"
            _ _ eq_refl _).
  - apply list_elem_of_here.
  - apply list_elem_of_here.
  - discriminate.
Defined.

(** ** Nothing but what is declared is collected *)

Lemma preserves_for_of_elem {A} P (l : list A) body :
  (forall x, x ∈ l -> preserves P (body x)) -> preserves P (for_of l body).
Proof.
  induction l as [|x l IH]; intros Hbody; simpl.
  - apply preserves_ret.
  - apply preserves_bind; [apply Hbody, list_elem_of_here|]. intros _.
    apply IH. intros y Hy. apply Hbody. by apply list_elem_of_further.
Qed.

Lemma push_sound env o p routerInfo :
  declared env o routerInfo ->
  preserves (sound env o) (checkDuplicateAndPush p routerInfo).
Proof.
  intros Hinfo w (Ho & Hall & Hrp).
  destruct (checkDuplicateAndPush_cases p routerInfo w) as [->|(l & Hget & ->)];
    [done|].
  split; [done|]. split; [|done].
  eapply every_group_insert; [exact Hall| |done].
  apply Forall_app. split; [by eapply Hall|by constructor].
Qed.

Lemma set_prefix_sound env o item :
  declared_group env o item -> preserves (sound env o) (set_prefix item).
Proof.
  intros Hitem w (Ho & Hall & Hrp). rewrite set_prefix_eq. simpl.
  destruct (has _ _); [done|].
  split; [done|]. split.
  - intros q l. simpl. destruct (decide (RouterPriority.prefix item = q)) as [<-|Hne].
    + rewrite lookup_insert_eq. by intros [= <-].
    + rewrite lookup_insert_ne by done. apply Hall.
  - simpl. apply Forall_app. split; [done|]. by constructor.
Qed.

Lemma collectRoute_sound env o module :
  module ∈ controllerModules env ->
  preserves (sound env o) (collectRoute env module false).
Proof.
  intros Hin w Hw. pose proof Hw as (Ho & _).
  unfold collectRoute. unfold bind at 1, this at 1. rewrite Ho.
  destruct (Js.includes "*" _); [done|].
  apply (fun H1 H2 => preserves_bind (sound env o) _ _ H1 H2 w Hw).
  { apply set_prefix_sound. left. exists module. simpl. auto 10. }
  intros _. apply preserves_bind.
  { apply set_prefix_sound. left. exists module. simpl. auto 10. }
  intros _. destruct (ControllerModule.webRouterInfo module) as [members|] eqn:Hmem;
    [|apply preserves_ret].
  apply preserves_for_of_elem. intros webRouter Hmember. cbv beta zeta.
  apply push_sound. left. exists module, members, webRouter. unfold group_of. simpl.
  auto 10.
Qed.

Lemma collectFunctionRoute_sound env o module :
  module ∈ fnModules env ->
  preserves (sound env o) (collectFunctionRoute module false).
Proof.
  intros Hin. unfold collectFunctionRoute. apply preserves_bind.
  { apply set_prefix_sound. right. exists module. simpl. auto 10. }
  intros _. apply preserves_for_of_elem. intros webRouter Hmember. cbv beta zeta.
  destruct (Trigger.metadata webRouter ≫= TriggerOptions.path) as [path|] eqn:Hpath;
    [|apply preserves_ret].
  destruct (Js.is_empty path) eqn:He; simpl; [apply preserves_ret|].
  apply push_sound. right. exists module, webRouter, path. simpl.
  repeat split; try done. intros ->. done.
Qed.

Lemma collect_sound env o :
  preserves (sound env o) (collect env (controllerModules env)).
Proof.
  unfold collect. apply preserves_bind.
  { apply preserves_for_of_elem. intros module Hin. by apply collectRoute_sound. }
  intros _. apply preserves_bind; [apply preserves_this|]. intros c.
  destruct (truthy _); [|apply preserves_ret].
  apply preserves_for_of_elem. intros module Hin. by apply collectFunctionRoute_sound.
Qed.

Lemma sortRouter_Forall (Q : RouterInfo.t -> Prop) l :
  (forall a, Q a -> Q (keyed a)) -> Forall Q l -> Forall Q (sortRouter l).
Proof.
  intros Hk Hl. rewrite sortRouter_keyed. apply Forall_fmap.
  rewrite (sort_perm compare_items l).
  eapply Forall_impl; [exact Hl|]. intros x. apply Hk.
Qed.

Lemma declared_keyed env o a : declared env o a -> declared env o (keyed a).
Proof. done. Qed.

Lemma analyze_sound env o w :
  groups_agree (self w) -> sound env o w -> sound env o (snd (analyze env w)).
Proof.
  intros Hagree Hsound. rewrite analyze_eq. unfold bind.
  pose proof (collect_agree env (controllerModules env) (listed w) Hagree) as Ha.
  pose proof (collect_sound env o (listed w) Hsound) as Hs.
  destruct (collect env _ (listed w)) as [[[]|e] w1]; simpl in *; [|done].
  destruct Ha as [Hnd Hkeys]. destruct Hs as (Ho & Hall & Hrp).
  destruct (filter_empty_prefix_ok (routesPriority (self w1)) w1 Hnd) as (r & Hf & Hr).
  { intros q. apply Hkeys. }
  rewrite (finish_eq _ _ _ Hf). simpl.
  split; [done|]. split.
  - intros p l. simpl. rewrite lookup_fmap, Hr. unfold pruned_lookup.
    destruct (routes (self w1) !! p) as [l0|] eqn:Hp; [|done].
    assert (Forall (declared env o) (sortRouter l0)) as Hsorted.
    { apply sortRouter_Forall; [apply declared_keyed|by eapply Hall]. }
    destruct l0; [destruct (decide _); [done|]|]; by intros [= <-].
  - simpl. rewrite (sort_perm compare_prefix _).
    rewrite Forall_forall in Hrp |- *. intros x Hx. apply Hrp.
    apply list_elem_of_In. apply list_elem_of_In, filter_In in Hx. tauto.
Qed.

Lemma call_sound env o op w :
  consistent w -> sound env o w -> sound env o (snd (call env op w)).
Proof.
  intros (Hagree & _) Hsound. destruct (isReady (self w)) eqn:Hready.
  - by rewrite call_cached.
  - rewrite call_run by done.
    pose proof (analyze_sound env o w Hagree Hsound) as Hs.
    by destruct (analyze env w) as [[[]|e] w1].
Qed.

Lemma calls_sound env o ops w :
  consistent w -> sound env o w -> sound env o (calls env ops w).
Proof.
  revert w. induction ops as [|op ops IH]; intros w Hw Hs; simpl; [done|].
  apply IH; [by apply call_consistent|by apply call_sound].
Qed.

Lemma fresh_sound env baseDir options : sound env options (fresh baseDir options).
Proof.
  split; [done|]. split; [|constructor]. intros p l. simpl. by rewrite lookup_empty.
Qed.

(** X14.  On an instance that a client has only read from, every entry of
    the table is the entry of a declaration of the registry: of a member of
    one of its controllers, with the prefix, the pattern, the request
    method, the method and the controller of that member, or of a trigger
    of one of its function modules that declares a non-empty path. *)
Theorem entries_are_declared env baseDir options ops :
  every_group (fun _ l => Forall (declared env options) l)
    (self (calls env ops (fresh baseDir options))).
Proof.
  apply (calls_sound env options ops _ (fresh_consistent baseDir options)
           (fresh_sound env baseDir options)).
Qed.

(** X15.  On an instance that a client has only read from, every record of
    the priority list was built for a controller of the registry, whose
    name, module, router options and middleware it carries and whose
    resolved prefix or own prefix is its prefix, or for a function module
    of the registry, under the prefix [/] with no middleware and empty
    options. *)
Theorem priority_records_are_declared env baseDir options ops :
  Forall (declared_group env options)
    (routesPriority (self (calls env ops (fresh baseDir options)))).
Proof.
  apply (calls_sound env options ops _ (fresh_consistent baseDir options)
           (fresh_sound env baseDir options)).
Qed.

(** X16.  On an instance that a client has only read from, also after a
    pass that failed, the priority list names no prefix twice, and the
    prefixes that it names are the keys of the table. *)
Theorem priority_list_names_the_groups env baseDir options ops :
  groups_agree (self (calls env ops (fresh baseDir options))).
Proof. apply (calls_consistent env ops _ (fresh_consistent baseDir options)). Qed.

Lemma in_order_category l i j a b :
  in_order l -> l !! i = Some a -> l !! j = Some b ->
  key_category a < key_category b -> (j < i)%nat.
Proof.
  intros [_ Hord] Ha Hb Hlt.
  destruct (Nat.lt_trichotomy i j) as [Hij|[->|Hij]]; [|simplify_eq; lia|done].
  pose proof (Hord i j a b Hij Ha Hb) as Hp. unfold may_precede in Hp. lia.
Qed.

Lemma category_of_parameter s :
  Js.includes "*" s = false -> Js.includes ":" s = true -> leading_parameter s = false ->
  category_of s = 1.
Proof.
  unfold category_of, paramString_of. intros Hw Hc Hl. rewrite Hw, Hc.
  destruct (Js.is_empty (Js.replace_param_tail s)) eqn:He; [|done].
  apply is_empty_true, replace_param_tail_empty in He as [->|He]; [done|congruence].
Qed.

(** X17.  In the list that [sortRouter] returns, an entry whose pattern
    holds neither a star nor a colon stands before every entry whose
    pattern holds a star, and before every entry whose pattern holds a
    colon, unless that pattern starts with a colon that something follows;
    and an entry whose pattern holds a colon after its first character and
    no star stands before every entry whose pattern holds a star. *)
Theorem sortRouter_category_order (urlMatchList : list RouterInfo.t) i j a b :
  sortRouter urlMatchList !! i = Some a ->
  sortRouter urlMatchList !! j = Some b ->
  has_wildcard b = false ->
  (has_parameter b = false
   /\ (has_wildcard a = true
       \/ (has_parameter a = true
           /\ leading_parameter (url_toString (RouterInfo.url a)) = false)))
  \/ (has_parameter b = true
      /\ leading_parameter (url_toString (RouterInfo.url b)) = false
      /\ has_wildcard a = true) ->
  (j < i)%nat.
Proof.
  unfold has_wildcard, has_parameter. intros Ha Hb Hwb Hcase.
  eapply (in_order_category _ i j a b (sortRouter_in_order urlMatchList) Ha Hb).
  unfold key_category, sort_keys. cbn [_category].
  destruct Hcase as [(Hpb & Hcase)|(Hpb & Hlb & Hwa)].
  - rewrite (category_of_literal _ Hpb Hwb). destruct Hcase as [Hwa|[Hpa Hla]].
    + rewrite (category_of_wildcard _ Hwa). lia.
    + destruct (Js.includes "*" (url_toString (RouterInfo.url a))) eqn:Hwa.
      * rewrite (category_of_wildcard _ Hwa). lia.
      * rewrite (category_of_parameter _ Hwa Hpa Hla). lia.
  - rewrite (category_of_parameter _ Hwb Hpb Hlb), (category_of_wildcard _ Hwa). lia.
Qed.

Lemma sortRouter_category_order_witness : (0 < 2)%nat.
Proof.
  apply (sortRouter_category_order
           [entry "get" (UrlString "/ab/*") "a"; entry "get" (UrlString "/ab/cd") "b";
            entry "get" (UrlString "/ab/:id") "c"]
           2%nat 0%nat
           (keyed (entry "get" (UrlString "/ab/*") "a"))
           (keyed (entry "get" (UrlString "/ab/cd") "b")));
    [reflexivity|reflexivity|reflexivity|].
  left. split; [reflexivity|]. left. reflexivity.
Defined.

Lemma ensure_begin_run env w :
  isReady (self w) = false ->
  ensure_begin env w
  = match analyze env w with
    | (Ok _, w') => (Ok true, w')
    | (Throw e, w') => (Throw e, w')
    end.
Proof.
  intros Hnot. unfold ensure_begin, bind, this. rewrite Hnot. simpl.
  by destruct (analyze env w) as [[[]|e] w'].
Qed.

(** X18.  Two read operations called in the same turn on an instance that
    is not ready each run [analyze]: whatever the registry holds, the
    controllers are listed twice; and the instance is marked ready exactly
    when one of the two passes returned. *)
Theorem two_calls_same_turn_two_passes env w :
  isReady (self w) = false ->
  listModuleCalls (snd (two_calls_same_turn env w)) = S (S (listModuleCalls w))
  /\ (isReady (self (snd (two_calls_same_turn env w))) = true
      <-> fst (fst (two_calls_same_turn env w)) = Ok true
          \/ snd (fst (two_calls_same_turn env w)) = Ok true).
Proof.
  intros Hnot. unfold two_calls_same_turn. rewrite ensure_begin_run by done.
  destruct (analyze_frame env w) as [Hr1 Hn1].
  destruct (analyze env w) as [[[]|e1] w1]; simpl in Hr1, Hn1;
    (rewrite ensure_begin_run by congruence);
    destruct (analyze_frame env w1) as [Hr2 Hn2];
    destruct (analyze env w1) as [[[]|e2] w2]; simpl in *.
  - split; [lia|]. split; [by left|done].
  - split; [lia|]. split; [by left|done].
  - split; [lia|]. split; [by right|done].
  - split; [lia|]. rewrite Hr2, Hr1, Hnot. split; [done|]. by intros [|].
Qed.

Lemma two_calls_same_turn_two_passes_witness :
  listModuleCalls (snd (two_calls_same_turn env_api (fresh "" no_options))) = 2%nat.
Proof.
  apply (proj1 (two_calls_same_turn_two_passes env_api (fresh "" no_options) eq_refl)).
Defined.

(** ** The order of [sortRouter] in the words of the specification *)

Lemma compare_handlers_antisym h1 h2 :
  compare_handlers h2 h1 = - compare_handlers h1 h2.
Proof.
  destruct h1 as [a [pa la sa ca wa]], h2 as [b [pb lb sb cb wb]]; simpl.
  rewrite (String.eqb_sym pa pb).
  destruct (Z.eqb_spec ca cb), (Z.eqb_spec cb ca); simpl; try lia.
  destruct (Z.eqb_spec wa wb), (Z.eqb_spec wb wa); simpl; try lia.
  destruct (Z.eqb_spec la lb), (Z.eqb_spec lb la); simpl; try lia.
  destruct (String.eqb_spec pb pa); [subst pb|]; lia.
Qed.

(** The insertion sort has the two properties used of the engine's sort. *)
Lemma Js_sort_as_engine : sorts_as_engine (@Js.sort).
Proof.
  intros A cmp l Hanti. split; [apply sort_perm|].
  apply sort_Sorted. intros x y Hxy. rewrite Hanti. lia.
Qed.

Lemma sortRouter_by_Js_sort l : sortRouter_by (@Js.sort) l = sortRouter l.
Proof. done. Qed.

Lemma Sorted_fmap_inv {A B} (f : A -> B) (R : B -> B -> Prop) l :
  Sorted R (map f l) -> Sorted (fun x y => R (f x) (f y)) l.
Proof.
  induction l as [|x l IH]; simpl; intros Hs; [constructor|].
  inversion Hs as [|? ? Hs' Hhd]; subst. constructor; [by apply IH|].
  destruct l; simpl in *; constructor. by inversion Hhd.
Qed.

Lemma decorated_items (L : list (RouterInfo.t * SortKeys)) :
  Forall (fun h => h = decorate (fst h)) L ->
  map (fun h => RouterInfo.with_keys (fst h) (snd h)) L = map keyed (map fst L)
  /\ L = map decorate (map fst L).
Proof.
  induction 1 as [|[a k] L Hh _ [IH1 IH2]]; simpl; [done|].
  injection Hh as ->. split; [by rewrite IH1|by rewrite <- IH2].
Qed.

(** Whatever the sort, [sortRouter] returns the entries of its argument,
    each with its keys, with every entry in the order of the comparator
    with its successor. *)
Lemma sortRouter_by_items sort l :
  sorts_as_engine sort ->
  exists items, sortRouter_by sort l = map keyed items /\ items ≡ₚ l
    /\ Sorted (ordered compare_items) items.
Proof.
  intros Hsort.
  destruct (Hsort _ compare_handlers (map decorate l)
              (fun x y => compare_handlers_antisym x y)) as [Hperm Hsorted].
  unfold sortRouter_by.
  set (L := sort _ compare_handlers (map decorate l)) in *. clearbody L.
  assert (Forall (fun h => h = decorate (fst h)) L) as Hdec.
  { rewrite Hperm. apply Forall_fmap, Forall_true. done. }
  destruct (decorated_items L Hdec) as [Hmap HL].
  exists (map fst L). split; [done|]. split.
  - apply (Permutation_map fst) in Hperm. rewrite Hperm, map_map.
    unfold decorate. simpl. by rewrite map_id.
  - rewrite HL in Hsorted. by apply Sorted_fmap_inv in Hsorted.
Qed.

Lemma key_category_category a : starts_plain a -> key_category a = category a.
Proof.
  unfold starts_plain, key_category, category, has_wildcard, has_parameter, sort_keys.
  cbn [_category]. intros Hl.
  destruct (Js.includes "*" (url_toString (RouterInfo.url a))) eqn:Hw;
    [by apply category_of_wildcard|].
  destruct (Js.includes ":" (url_toString (RouterInfo.url a))) eqn:Hp;
    [by apply category_of_parameter|by apply category_of_literal].
Qed.

Lemma key_weight_specificityWeight a : key_weight a = specificityWeight a.
Proof.
  unfold key_weight, specificityWeight, sort_keys. cbn [_weight].
  unfold weight_of. rewrite weight_of_filter_acc. lia.
Qed.

Lemma key_level_depth a : key_level a = depth a.
Proof.
  unfold key_level, depth, sort_keys. cbn [_level].
  unfold Js.split. rewrite split_go_slash_length. lia.
Qed.

Lemma may_precede_precedes a b :
  starts_plain a -> starts_plain b -> may_precede a b -> precedes a b.
Proof.
  intros Ha Hb. unfold may_precede, precedes.
  by rewrite !key_category_category, !key_weight_specificityWeight, !key_level_depth.
Qed.

Lemma ties_same_rank a b :
  starts_plain a -> starts_plain b -> ties a b -> same_rank a b.
Proof.
  intros Ha Hb. unfold ties, same_rank.
  by rewrite !key_category_category, !key_weight_specificityWeight, !key_level_depth.
Qed.

(** C1, as amended.  Take a list of entries none of whose patterns starts
    with a parameter, and any sort that returns a permutation of its
    argument with every element in the order of the comparator with its
    successor.  Then [sortRouter] returns the entries it was given, each
    with its keys attached, in an order such that of any two entries the
    earlier one has the larger category, or the same category and the
    larger weight, or the same of both and the larger depth, or the same of
    all three and a normalized form that is at least as long.  Of two
    neighbours that tie on the three keys and have the same normalized form,
    the one with the shorter raw pattern is first.  When the normalized
    forms are different strings of the same length the comparator answers 0,
    whatever the lengths of the raw patterns. *)
Theorem sortRouter_order sort (urlMatchList : list RouterInfo.t) :
  sorts_as_engine sort ->
  Forall starts_plain urlMatchList ->
  sortRouter_by sort urlMatchList ≡ₚ map keyed urlMatchList
  /\ (forall i j a b, (i < j)%nat ->
        sortRouter_by sort urlMatchList !! i = Some a ->
        sortRouter_by sort urlMatchList !! j = Some b -> precedes a b)
  /\ (forall i a b,
        sortRouter_by sort urlMatchList !! i = Some a ->
        sortRouter_by sort urlMatchList !! S i = Some b ->
        ties a b -> normalizedForm a = normalizedForm b ->
        raw_length a <= raw_length b)
  /\ (forall a b, starts_plain a -> starts_plain b ->
        ties a b -> normalizedForm a <> normalizedForm b ->
        Js.strlen (normalizedForm a) = Js.strlen (normalizedForm b) ->
        compare_handlers (decorate a) (decorate b) = 0).
Proof.
  intros Hsort Hplain.
  destruct (sortRouter_by_items sort urlMatchList Hsort)
    as (items & -> & Hperm & Hsorted).
  assert (forall a, a ∈ items -> starts_plain a) as Hitems.
  { apply Forall_forall. by rewrite Hperm. }
  split; [by apply fmap_Permutation|]. split; [|split].
  - intros i j a b Hij Ha Hb.
    apply list_lookup_fmap_Some in Ha as (a' & -> & Ha).
    apply list_lookup_fmap_Some in Hb as (b' & -> & Hb).
    change (precedes a' b').
    apply may_precede_precedes;
      [by eapply Hitems, list_elem_of_lookup_2|by eapply Hitems, list_elem_of_lookup_2|].
    eapply (StronglySorted_lookup may_precede items i j); [|done..].
    apply Sorted_StronglySorted; [intros x y z; apply may_precede_trans|].
    eapply Sorted_mono; [|exact Hsorted].
    intros x y. apply compare_items_may_precede.
  - intros i a b Ha Hb Hties Hform.
    apply list_lookup_fmap_Some in Ha as (a' & -> & Ha).
    apply list_lookup_fmap_Some in Hb as (b' & -> & Hb).
    change (ties a' b') in Hties.
    change (normalizedForm a' = normalizedForm b') in Hform.
    change (raw_length a' <= raw_length b').
    assert (compare_items a' b' <= 0) as Hcmp.
    { by eapply (Sorted_lookup_next (ordered compare_items)). }
    rewrite (compare_items_same_form a' b') in Hcmp; [lia| |done].
    apply ties_same_rank; [by eapply Hitems, list_elem_of_lookup_2..|done].
  - intros a b Ha Hb Hties Hform Hlen.
    change (compare_items a b = 0).
    rewrite compare_items_other_form; [lia| |done].
    by apply ties_same_rank.
Qed.

Lemma sortRouter_order_witness :
  sortRouter [entry "get" (UrlString "/ab/*") "a"; entry "get" (UrlString "/ab/cd") "b"]
  = [keyed (entry "get" (UrlString "/ab/cd") "b"); keyed (entry "get" (UrlString "/ab/*") "a")]
  /\ precedes (keyed (entry "get" (UrlString "/ab/cd") "b"))
       (keyed (entry "get" (UrlString "/ab/*") "a")).
Proof.
  split; [reflexivity|].
  apply (proj1 (proj2 (sortRouter_order (@Js.sort)
           [entry "get" (UrlString "/ab/*") "a"; entry "get" (UrlString "/ab/cd") "b"]
           Js_sort_as_engine ltac:(repeat constructor)))
         0%nat 1%nat); [lia|reflexivity|reflexivity].
Defined.

(** ** What a failed pass leaves *)








